(** * KrakenClient: predicate-driven waiters over one WebSocket message feed

    A shallow embedding of the two [KrakenClient] classes of
    [utils/ws-helper.ts]: the default export (a [Set] of message handlers fed
    by one ['message'] listener, with [waitFor] and [waitForSilence]) and the
    older named export (one [EventEmitter] listener per [waitFor] call).

    JavaScript runs every callback of the client to completion on one
    thread, so the client is modelled as a state machine driven by the
    events of the event loop: an inbound frame, a timer becoming due, and a
    call of the public API by the test code.  Wall-clock time is abstracted:
    "the timeout elapses" is the event that runs the timer callback.  Frames
    are taken as already decoded ([JSON.parse] and the socket itself,
    [connect], [send] and [close], are outside the model), and the default
    values of [count] and [timeout] are left to the caller. *)

From Stdlib Require Import Ascii.
From stdpp Require Import base list strings pretty sorting gmap.

(** ** Values shared by both clients *)

(** [new Error(message)]. *)
Record Error := mkError { message : string }.

(** A JavaScript [number] passed as a count or a timeout: an integer, or
    some other number (a fraction, [NaN], an infinity), known only by the text
    a template literal prints for it.  Integers are printed in decimal, as
    JavaScript does below 1e21. *)
Inductive number := Integer (z : Z) | NonInteger (text : string).

Global Instance number_eq_dec : EqDecision number.
Proof. solve_decision. Defined.

Definition to_string (n : number) : string :=
  match n with Integer z => pretty z | NonInteger text => text end.

(** The handle returned by [setTimeout]: pending, cancelled by
    [clearTimeout], or already run. *)
Inductive Timer := Armed | Cleared | Fired.

Section Client.

(** [type Message = any]: a decoded frame, opaque to the client. *)
Context {Message : Type}.

(** What one evaluation of a caller's predicate does.  A predicate is an
    arbitrary JavaScript function: besides returning a boolean it may throw,
    and it may call back into the client synchronously (the executor of
    [new Promise] runs inside the call, so [waitFor] registers its handler
    before it returns).  What a predicate does depends on the message only:
    predicates that keep state between calls are not represented. *)
Inductive Run : Type :=
| Return (b : bool)
| Throw (e : Error)
| WaitFor (condition : Message → Run) (count timeout : number) (k : Run)
| WaitForSilence (condition : Message → Run) (timeout : number) (k : Run).

(** [type Condition = (msg: Message) => boolean]. *)
Definition Condition : Type := Message → Run.

(** A predicate without effects. *)
Definition pure (P : Message → bool) : Condition := λ msg, Return (P msg).

(** The value a promise is fulfilled with: [Message[]] for [waitFor],
    [undefined] for [waitForSilence]. *)
Inductive Value := Messages (results : list Message) | Undefined.

Inductive Promise := Pending | Fulfilled (v : Value) | Rejected (e : Error).

(** Which method created the closures of a call. *)
Inductive Mode := COLLECT (count : number) | SILENCE.

(** The closures one call of [waitFor] or [waitForSilence] creates: the
    captured arguments, the [results] array, the [timer] handle and the
    promise whose [resolve] and [reject] the closures hold. *)
Record Call := mkCall {
  mode : Mode;
  condition : Condition;
  timeout : number;
  results : list Message;
  timer : Timer;
  promise : Promise
}.

(** The client: [messageHandlers] is the [Set] of handlers, kept as the
    list of entries ECMAScript specifies for [[SetData]] (insertion order; a
    deleted entry is replaced by the empty marker [None]).  A handler is
    named by the index of its call in [calls]. *)
Record Client := mkClient {
  messageHandlers : list (option nat);
  calls : list Call
}.

Definition new_client : Client := mkClient [] [].

(** *** [Set.prototype.add] and [Set.prototype.delete] *)

Definition Set_add (h : nat) (s : list (option nat)) : list (option nat) :=
  if decide (Some h ∈ s) then s else s ++ [Some h].

Definition Set_delete (h : nat) (s : list (option nat)) : list (option nat) :=
  (λ e, if decide (e = Some h) then None else e) <$> s.

(** *** Promise settlement: [resolve] and [reject] act on a pending promise
    only. *)

Definition settle (outcome : Promise) (p : Promise) : Promise :=
  match p with Pending => outcome | _ => p end.

Definition set_results (r : list Message) (c : Call) : Call :=
  mkCall (mode c) (condition c) (timeout c) r (timer c) (promise c).
Definition set_timer (t : Timer) (c : Call) : Call :=
  mkCall (mode c) (condition c) (timeout c) (results c) t (promise c).
Definition set_promise (p : Promise) (c : Call) : Call :=
  mkCall (mode c) (condition c) (timeout c) (results c) (timer c) p.

Definition update_call (id : nat) (f : Call → Call) (st : Client) : Client :=
  mkClient (messageHandlers st) (alter f id (calls st)).

Definition resolve (id : nat) (v : Value) : Client → Client :=
  update_call id (λ c, set_promise (settle (Fulfilled v) (promise c)) c).

Definition reject (id : nat) (e : Error) : Client → Client :=
  update_call id (λ c, set_promise (settle (Rejected e) (promise c)) c).

(** [results.push(msg)]. *)
Definition push (msg : Message) (c : Call) : Call :=
  set_results (results c ++ [msg]) c.

Definition results_of (id : nat) (st : Client) : list Message :=
  match calls st !! id with Some c => results c | None => [] end.

(** [clearTimeout(timer)]: cancels a pending timer, nothing otherwise. *)
Definition clearTimeout (id : nat) : Client → Client :=
  update_call id (λ c, match timer c with Armed => set_timer Cleared c | _ => c end).

(** [const cleanup = () => { clearTimeout(timer);
    this.messageHandlers.delete(handler); }] *)
Definition cleanup (id : nat) (st : Client) : Client :=
  let st1 := clearTimeout id st in
  mkClient (Set_delete id (messageHandlers st1)) (calls st1).

(** *** The two wait primitives (the executor of the promise) *)

Definition register (m : Mode) (cond : Condition) (t : number) (st : Client)
  : nat * Client :=
  let id := length (calls st) in
  (id, mkClient (Set_add id (messageHandlers st))
                (calls st ++ [mkCall m cond t [] Armed Pending])).

(** [waitFor(condition, count = 1, timeout = 8000)]: returns the promise
    (named by the call's index) and the client with the handler added. *)
Definition waitFor (cond : Condition) (count timeout : number)
  : Client → nat * Client :=
  register (COLLECT count) cond timeout.

(** [waitForSilence(condition, timeout = 5000)]. *)
Definition waitForSilence (cond : Condition) (timeout : number)
  : Client → nat * Client :=
  register SILENCE cond timeout.

(** *** Running a predicate *)

Inductive Completion := Normal (b : bool) | Abrupt (e : Error).

Fixpoint exec (r : Run) (st : Client) : Completion * Client :=
  match r with
  | Return b => (Normal b, st)
  | Throw e => (Abrupt e, st)
  | WaitFor c n t k => exec k (snd (waitFor c n t st))
  | WaitForSilence c t k => exec k (snd (waitForSilence c t st))
  end.

(** The result of running a callback of the event loop: it returns, it
    throws (nothing in the client catches), or the model ran out of fuel. *)
Inductive Result :=
| Ok (st : Client)
| Uncaught (e : Error) (st : Client)
| OutOfFuel.

(** *** The [handler] closures *)

Definition silence_error : Error :=
  mkError "Message received during silence window"%string.

Definition timeout_error (received : nat) (count : number) : Error :=
  mkError ("Timeout: Only received " +:+ pretty received +:+ "/" +:+
           to_string count +:+ " messages")%string.

(** [const handler = (msg) => { if (condition(msg)) { ... } }] of
    [waitFor] and of [waitForSilence].  (A handler exists only for a call that
    was made, so the first branch is never taken.) *)
Definition handler (id : nat) (msg : Message) (st : Client) : Result :=
  match calls st !! id with
  | None => Ok st
  | Some c =>
    match exec (condition c msg) st with
    | (Abrupt e, st1) => Uncaught e st1
    | (Normal false, st1) => Ok st1
    | (Normal true, st1) =>
      match mode c with
      | COLLECT count =>
        let st2 := update_call id (push msg) st1 in
        if decide (Integer (Z.of_nat (length (results_of id st2))) = count)
        then Ok (resolve id (Messages (results_of id st2)) (cleanup id st2))
        else Ok st2
      | SILENCE => Ok (reject id silence_error (cleanup id st1))
      end
    end
  end.

(** *** The timer callbacks *)

(** The callback passed to [setTimeout]; a timer that was cleared (or has
    run) does not run. *)
Definition on_timeout (id : nat) (st : Client) : Client :=
  match calls st !! id with
  | None => st
  | Some c =>
    match timer c with
    | Armed =>
      let st1 := cleanup id (update_call id (set_timer Fired) st) in
      match mode c with
      | COLLECT count =>
        reject id (timeout_error (length (results_of id st1)) count) st1
      | SILENCE => resolve id Undefined st1
      end
    | _ => st
    end
  end.

(** *** The ['message'] listener installed by [connect] *)

(** [Set.prototype.forEach]: walks the live entry list by index, skipping
    empty entries and re-reading the number of entries after every callback,
    so entries appended during the walk are visited too.  Predicates that
    keep registering make the walk endless, hence the [fuel], one unit per
    entry visited.  The first component logs the handlers called, in order. *)
Fixpoint forEach (fuel : nat) (msg : Message) (index : nat) (st : Client)
  : list nat * Result :=
  match messageHandlers st !! index with
  | None => ([], Ok st)
  | Some e =>
    match fuel with
    | O => ([], OutOfFuel)
    | S fuel' =>
      match e with
      | None => forEach fuel' msg (S index) st
      | Some h =>
        match handler h msg st with
        | Ok st' =>
          let (log, r) := forEach fuel' msg (S index) st' in (h :: log, r)
        | r => ([h], r)
        end
      end
    end
  end.

(** [this.messageHandlers.forEach(handler => handler(msg))]. *)
Definition dispatch (fuel : nat) (msg : Message) (st : Client) : list nat * Result :=
  forEach fuel msg 0 st.

(** ** The event loop *)

Inductive Event :=
| Inbound (msg : Message)
| TimerDue (id : nat)
| CallWaitFor (cond : Condition) (count timeout : number)
| CallWaitForSilence (cond : Condition) (timeout : number).

Definition step (fuel : nat) (ev : Event) (st : Client) : Result :=
  match ev with
  | Inbound msg => snd (dispatch fuel msg st)
  | TimerDue id => Ok (on_timeout id st)
  | CallWaitFor c n t => Ok (snd (waitFor c n t st))
  | CallWaitForSilence c t => Ok (snd (waitForSilence c t st))
  end.

Fixpoint run (fuel : nat) (evs : list Event) (st : Client) : Result :=
  match evs with
  | [] => Ok st
  | ev :: evs' =>
    match step fuel ev st with
    | Ok st' => run fuel evs' st'
    | r => r
    end
  end.

(** ** The view of one call

    What the client's callbacks do to the closures of a single call, used to
    follow one promise through a run. *)

(** The completion of a predicate, whatever it registers on the way. *)
Fixpoint verdict (r : Run) : Completion :=
  match r with
  | Return b => Normal b
  | Throw e => Abrupt e
  | WaitFor _ _ _ k => verdict k
  | WaitForSilence _ _ k => verdict k
  end.

Definition is_pending (p : Promise) : bool :=
  match p with Pending => true | _ => false end.

(** The call's own [handler] is invoked with [msg]. *)
Definition receive (msg : Message) (c : Call) : Call :=
  match verdict (condition c msg) with
  | Normal true =>
    match mode c with
    | COLLECT count =>
      let r := results c ++ [msg] in
      if decide (Integer (Z.of_nat (length r)) = count)
      then mkCall (mode c) (condition c) (timeout c) r Cleared
                  (settle (Fulfilled (Messages r)) (promise c))
      else set_results r c
    | SILENCE =>
      mkCall (mode c) (condition c) (timeout c) (results c) Cleared
             (settle (Rejected silence_error) (promise c))
    end
  | _ => c
  end.

(** The call's own timer callback runs. *)
Definition expire (c : Call) : Call :=
  mkCall (mode c) (condition c) (timeout c) (results c) Fired
    (settle (match mode c with
             | COLLECT count => Rejected (timeout_error (length (results c)) count)
             | SILENCE => Fulfilled Undefined
             end) (promise c)).

(** What an event does to call [w], provided the event's callback returns. *)
Definition call_step (w : nat) (ev : Event) (c : Call) : Call :=
  match ev with
  | Inbound msg => if is_pending (promise c) then receive msg c else c
  | TimerDue id =>
    if decide (id = w)
    then match timer c with Armed => expire c | _ => c end
    else c
  | _ => c
  end.

(** The decoded frames of a run, in receipt order. *)
Definition inbound (evs : list Event) : list Message :=
  omap (λ ev, match ev with Inbound msg => Some msg | _ => None end) evs.

Definition promise_of (id : nat) (st : Client) : option Promise :=
  promise <$> calls st !! id.

(** ** Invariants *)

Definition registered (id : nat) (st : Client) : Prop :=
  Some id ∈ messageHandlers st.

(** How a promise was settled can be read off the timer: a match clears the
    timer, expiry leaves it run. *)
Definition call_ok (c : Call) : Prop :=
  match promise c, mode c with
  | Pending, _ => timer c = Armed
  | Fulfilled v, COLLECT n =>
    timer c = Cleared ∧ v = Messages (results c) ∧
    Integer (Z.of_nat (length (results c))) = n
  | Fulfilled v, SILENCE => timer c = Fired ∧ v = Undefined
  | Rejected e, COLLECT n =>
    timer c = Fired ∧ e = timeout_error (length (results c)) n
  | Rejected e, SILENCE => timer c = Cleared ∧ e = silence_error
  end.

Record wf (st : Client) : Prop := {
  wf_registered : ∀ id, registered id st →
    ∃ c, calls st !! id = Some c ∧ promise c = Pending;
  wf_call : ∀ id c, calls st !! id = Some c →
    call_ok c ∧ (promise c = Pending → registered id st);
  wf_unique : ∀ i j h,
    messageHandlers st !! i = Some (Some h) →
    messageHandlers st !! j = Some (Some h) → i = j
}.

(** The state a callback leaves behind, if it comes back at all. *)
Definition final (r : Result) : option Client :=
  match r with Ok st | Uncaught _ st => Some st | OutOfFuel => None end.

(** States the event loop can reach; an uncaught exception leaves the
    client as it was when thrown. *)
Inductive reachable : Client → Prop :=
| reach_new : reachable new_client
| reach_step fuel ev st st' :
    reachable st → final (step fuel ev st) = Some st' → reachable st'.

(** [st'] is [st] after some registrations and nothing else. *)
Definition grown (st st' : Client) : Prop :=
  ∃ extra : list Call,
    calls st' = calls st ++ extra ∧
    messageHandlers st' =
      messageHandlers st ++ (Some <$> seq (length (calls st)) (length extra)).

(** The client after the callbacks of call [h] left its closures as [c']:
    the handler is gone from the set once the promise is settled. *)
Definition place (h : nat) (c' : Call) (st : Client) : Client :=
  mkClient (if is_pending (promise c') then messageHandlers st
            else Set_delete h (messageHandlers st))
           (<[h := c']> (calls st)).

(** The walk of [forEach] from entry [index] on, as a derivation: which
    handlers it calls and how it ends. *)
Inductive walks (msg : Message) : nat → Client → list nat → Result → Prop :=
| walk_end index st :
    messageHandlers st !! index = None → walks msg index st [] (Ok st)
| walk_dry index st e :
    messageHandlers st !! index = Some e → walks msg index st [] OutOfFuel
| walk_skip index st log r :
    messageHandlers st !! index = Some None →
    walks msg (S index) st log r → walks msg index st log r
| walk_call index st h st' log r :
    messageHandlers st !! index = Some (Some h) →
    handler h msg st = Ok st' →
    walks msg (S index) st' log r → walks msg index st (h :: log) r
| walk_throw index st h e st' :
    messageHandlers st !! index = Some (Some h) →
    handler h msg st = Uncaught e st' →
    walks msg index st [h] (Uncaught e st')
| walk_stuck index st h :
    messageHandlers st !! index = Some (Some h) →
    handler h msg st = OutOfFuel →
    walks msg index st [h] OutOfFuel.

(** The calls registered between [st] and [st']. *)
Definition news (st st' : Client) : list nat :=
  seq (length (calls st)) (length (calls st') - length (calls st)).

(** [cond] answers like the boolean function [P] on every message (it may
    register waiters on the way, it never throws). *)
Definition decides (cond : Condition) (P : Message → bool) : Prop :=
  ∀ msg, verdict (cond msg) = Normal (P msg).

(** The two ways a promise gets settled: by the call's handler on a match
    ([waitFor] resolves, [waitForSilence] rejects) or by the call's timer
    ([waitFor] rejects, [waitForSilence] resolves). *)
Definition settled_by_match (c : Call) : Prop :=
  match mode c, promise c with
  | COLLECT _, Fulfilled _ | SILENCE, Rejected _ => True
  | _, _ => False
  end.

Definition settled_by_timer (c : Call) : Prop :=
  match mode c, promise c with
  | COLLECT _, Rejected _ | SILENCE, Fulfilled _ => True
  | _, _ => False
  end.

(** The handlers in the set, in insertion order: what a copy of the set
    taken at this moment would hold. *)
Definition snapshot (st : Client) : list nat := omap id (messageHandlers st).

(** A predicate that returns a boolean and does nothing else. *)
Definition quiet (cond : Condition) : Prop := ∀ msg, ∃ b, cond msg = Return b.

Definition quiet_client (st : Client) : Prop :=
  ∀ id c, calls st !! id = Some c → quiet (condition c).

Definition quiet_event (ev : Event) : Prop :=
  match ev with
  | CallWaitFor cond _ _ | CallWaitForSilence cond _ => quiet cond
  | _ => True
  end.

End Client.

(** ** The older client (named export)

    [waitFor(predicate, timeout = 20000)] installs one ['message'] listener
    per call on the socket itself.  Predicates are taken as boolean
    functions here. *)
Module Legacy.
Section Client.
Context {Message : Type}.

(** The promise of the older [waitFor] is fulfilled with the message. *)
Inductive Promise := Pending | Fulfilled (msg : Message) | Rejected (e : Error).

Record Call := mkCall {
  predicate : Message → bool;
  timeout : number;
  timer : Timer;
  promise : Promise
}.

(** [listeners]: the socket's ['message'] listener array, each listener
    named by the index of its call. *)
Record Client := mkClient {
  listeners : list nat;
  calls : list Call
}.

Definition new_client : Client := mkClient [] [].

Definition timeout_error (timeout : number) : Error :=
  mkError ("Wait Timeout: Message not received within " +:+ to_string timeout
           +:+ "ms")%string.

Definition settle (outcome : Promise) (p : Promise) : Promise :=
  match p with Pending => outcome | _ => p end.

Definition update_call (id : nat) (f : Call → Call) (st : Client) : Client :=
  mkClient (listeners st) (alter f id (calls st)).

Definition resolve (id : nat) (msg : Message) : Client → Client :=
  update_call id (λ c, mkCall (predicate c) (timeout c) (timer c)
                              (settle (Fulfilled msg) (promise c))).

Definition reject (id : nat) (e : Error) : Client → Client :=
  update_call id (λ c, mkCall (predicate c) (timeout c) (timer c)
                              (settle (Rejected e) (promise c))).

Definition clearTimeout (id : nat) : Client → Client :=
  update_call id (λ c, match timer c with
                       | Armed => mkCall (predicate c) (timeout c) Cleared (promise c)
                       | _ => c
                       end).

Fixpoint remove_first (id : nat) (l : list nat) : list nat :=
  match l with
  | [] => []
  | x :: l' => if decide (x = id) then l' else x :: remove_first id l'
  end.

(** [this.ws.off('message', listener)]: removes the most recently added
    instance of the listener. *)
Definition off (id : nat) (st : Client) : Client :=
  mkClient (reverse (remove_first id (reverse (listeners st)))) (calls st).

(** [waitFor(predicate, timeout)]: arms the timer, then
    [this.ws.on('message', listener)]. *)
Definition waitFor (predicate : Message → bool) (timeout : number) (st : Client)
  : nat * Client :=
  let id := length (calls st) in
  (id, mkClient (listeners st ++ [id])
                (calls st ++ [mkCall predicate timeout Armed Pending])).

(** [const listener = (data) => { ... if (predicate(msg)) { clearTimeout(timer);
    this.ws.off('message', listener); resolve(msg); } }] *)
Definition listener (id : nat) (msg : Message) (st : Client) : Client :=
  match calls st !! id with
  | None => st
  | Some c =>
    if predicate c msg then resolve id msg (off id (clearTimeout id st)) else st
  end.

(** The timer callback only rejects: it leaves the listener installed. *)
Definition on_timeout (id : nat) (st : Client) : Client :=
  match calls st !! id with
  | None => st
  | Some c =>
    match timer c with
    | Armed =>
      reject id (timeout_error (timeout c))
        (update_call id (λ c, mkCall (predicate c) (timeout c) Fired (promise c)) st)
    | _ => st
    end
  end.

(** [EventEmitter.prototype.emit]: calls a copy of the listener array. *)
Definition emit (msg : Message) (st : Client) : Client :=
  foldl (λ st id, listener id msg st) st (listeners st).

Inductive Event :=
| Inbound (msg : Message)
| TimerDue (id : nat)
| CallWaitFor (predicate : Message → bool) (timeout : number).

Definition step (ev : Event) (st : Client) : Client :=
  match ev with
  | Inbound msg => emit msg st
  | TimerDue id => on_timeout id st
  | CallWaitFor P t => (waitFor P t st).2
  end.

Definition run (evs : list Event) (st : Client) : Client :=
  foldl (λ st ev, step ev st) st evs.

Definition promise_of (id : nat) (st : Client) : option Promise :=
  promise <$> calls st !! id.

End Client.
End Legacy.

(** ** Comparing the two clients on one call *)

Section Comparison.
Context {Message : Type}.

(** What happens while a single call is outstanding: a frame arrives, or
    the call's timeout elapses. *)
Inductive Tick := Frame (msg : Message) | Elapsed.

Definition legacy_events (id : nat) (trace : list Tick) : list (@Legacy.Event Message) :=
  (λ t, match t with
        | Frame msg => Legacy.Inbound msg
        | Elapsed => Legacy.TimerDue id
        end) <$> trace.

Definition events (id : nat) (trace : list Tick) : list (@Event Message) :=
  (λ t, match t with
        | Frame msg => Inbound msg
        | Elapsed => TimerDue id
        end) <$> trace.

(** The first tick that settles a wait for [P]: a matching frame or the
    timeout. *)
Fixpoint first_settling (P : Message → bool) (trace : list Tick) : option Tick :=
  match trace with
  | [] => None
  | Frame msg :: trace' =>
    if P msg then Some (Frame msg) else first_settling P trace'
  | Elapsed :: _ => Some Elapsed
  end.

(** The outcomes of the two variants correspond: the older one resolves
    with the message, the newer one with the one-element list holding it. *)
Inductive same_outcome : @Legacy.Promise Message → @Promise Message → Prop :=
| same_pending : same_outcome Legacy.Pending Pending
| same_fulfilled msg :
    same_outcome (Legacy.Fulfilled msg) (Fulfilled (Messages [msg]))
| same_rejected e e' : same_outcome (Legacy.Rejected e) (Rejected e').

End Comparison.

(** ** Order of the handler set *)

(** The live handlers stand in the order in which their waits were issued
    (a later call has a larger index). *)
Definition issue_ordered {Message : Type} (st : @Client Message) : Prop :=
  StronglySorted lt (snapshot st).

(** ** Opening the connection

    [connect] of both classes: a promise raced by the socket's ['open'] and
    ['error'] events and by a timer.  The socket belongs to the [ws]
    library: its events are taken as they come, and all that is kept of it
    is how often the client has called its [terminate]. *)

(** The promise returned by [connect]: [Promise<void>]. *)
Inductive Handshake := HPending | HResolved | HRejected (e : Error).

Record Connection := mkConnection {
  connect_timer : Timer;
  connect_promise : Handshake;
  terminate_calls : nat
}.

Inductive SocketEvent :=
| SocketOpen
| SocketError (err : Error)
| ConnectTimerDue.

(** [new Error('Connection Timeout')]. *)
Definition connection_timeout : Error := mkError "Connection Timeout"%string.

Definition hsettle (outcome : Handshake) (p : Handshake) : Handshake :=
  match p with HPending => outcome | _ => p end.

(** [connect(timeout = 5000)] of the newer client, once its executor has
    run: the socket is created, the timer is armed and the listeners are
    installed. *)
Definition connect : Connection := mkConnection Armed HPending 0.

(** The listeners and the timer callback installed by [connect]:
    ['open'] clears the timer and resolves, ['error'] rejects with the
    error, the timer terminates the socket and rejects. *)
Definition on_socket (ev : SocketEvent) (s : Connection) : Connection :=
  match ev with
  | SocketOpen =>
    mkConnection (match connect_timer s with Armed => Cleared | t => t end)
                 (hsettle HResolved (connect_promise s)) (terminate_calls s)
  | SocketError err =>
    mkConnection (connect_timer s) (hsettle (HRejected err) (connect_promise s))
                 (terminate_calls s)
  | ConnectTimerDue =>
    match connect_timer s with
    | Armed =>
      mkConnection Fired (hsettle (HRejected connection_timeout) (connect_promise s))
                   (S (terminate_calls s))
    | _ => s
    end
  end.

Definition connecting (evs : list SocketEvent) : Connection :=
  foldl (λ s ev, on_socket ev s) connect evs.

(** [connect()] of the older client: the same race, but its timer only
    rejects. *)
Module LegacyConnect.

Definition connect : Connection := mkConnection Armed HPending 0.

Definition on_socket (ev : SocketEvent) (s : Connection) : Connection :=
  match ev with
  | SocketOpen =>
    mkConnection (match connect_timer s with Armed => Cleared | t => t end)
                 (hsettle HResolved (connect_promise s)) (terminate_calls s)
  | SocketError err =>
    mkConnection (connect_timer s) (hsettle (HRejected err) (connect_promise s))
                 (terminate_calls s)
  | ConnectTimerDue =>
    match connect_timer s with
    | Armed =>
      mkConnection Fired (hsettle (HRejected connection_timeout) (connect_promise s))
                   (terminate_calls s)
    | _ => s
    end
  end.

Definition connecting (evs : list SocketEvent) : Connection :=
  foldl (λ s ev, on_socket ev s) connect evs.

End LegacyConnect.

(** The timer comes due while it is still armed: before any ['open'],
    errors notwithstanding. *)
Fixpoint times_out (evs : list SocketEvent) : bool :=
  match evs with
  | [] => false
  | SocketOpen :: _ => false
  | ConnectTimerDue :: _ => true
  | SocketError _ :: evs' => times_out evs'
  end.

(** ** What the test scenarios compute *)

(** [s.includes('.')]. *)
Fixpoint includes_point (s : string) : bool :=
  match s with
  | EmptyString => false
  | String a s' => Ascii.eqb a "."%char || includes_point s'
  end.

(** [s.split('.')]: the pieces of [s] between its points. *)
Fixpoint split_point (s : string) : list string :=
  match s with
  | EmptyString => [EmptyString]
  | String a s' =>
    if Ascii.eqb a "."%char then EmptyString :: split_point s'
    else match split_point s' with
         | piece :: pieces => String a piece :: pieces
         | [] => [String a EmptyString]
         end
  end.

(** [const decimals = bidStr.includes('.') ? bidStr.split('.')[1].length : 0]. *)
Definition decimals (bidStr : string) : nat :=
  if includes_point bidStr then
    match split_point bidStr !! 1 with
    | Some piece => String.length piece
    | None => 0
    end
  else 0.

(** The fields of a decoded frame the scenarios look at: [channel], [type] and the
    [symbol] of the entries of [data], each possibly missing. *)
Record Item := mkItem { symbol : option string }.

Record Wire := mkWire {
  channel : option string;
  type : option string;
  data : option (list Item)
}.

(** [m.data?.[0]?.symbol]. *)
Definition first_symbol (m : Wire) : option string :=
  match data m with
  | Some (item :: _) => symbol item
  | _ => None
  end.

(** [m.channel === 'ticker' && m.type === 'update']. *)
Definition is_ticker_update (m : Wire) : bool :=
  bool_decide (channel m = Some "ticker"%string) &&
  bool_decide (type m = Some "update"%string).

(** The accumulating predicate of the multi-market scenarios, with the
    [receivedSymbols] set it closes over passed along:
    [if (ticker update && symbols.includes(m.data?.[0]?.symbol))
       receivedSymbols.add(m.data[0].symbol);
     return receivedSymbols.size === symbols.length]. *)
Definition saw_all (symbols : list string) (receivedSymbols : gset string)
    (m : Wire) : gset string * bool :=
  let received :=
    match first_symbol m with
    | Some s =>
      if is_ticker_update m && bool_decide (s ∈ symbols)
      then {[s]} ∪ receivedSymbols else receivedSymbols
    | None => receivedSymbols
    end in
  (received, bool_decide (size received = length symbols)).

(** [receivedSymbols] after the predicate has been called on each of the
    frames in turn. *)
Definition received_after (symbols : list string) (ms : list Wire) : gset string :=
  foldl (λ r m, (saw_all symbols r m).1) ∅ ms.

(** The predicate of the idle-connection scenario:
    [msg.channel && !ignoredChannels.includes(msg.channel)], with
    [ignoredChannels = ['heartbeat', 'status']]. *)
Definition unexpected (m : Wire) : bool :=
  match channel m with
  | Some c =>
    negb (String.eqb c "") &&
    negb (bool_decide (c ∈ ["heartbeat"; "status"]%string))
  | None => false
  end.

(** How the body of the idle-connection scenario ends once its
    [waitForSilence] promise is settled: it returns, or its [catch] throws a
    new error quoting the message of the one caught. *)
Inductive Outcome := Passes | Throws (e : Error).

Definition idle_scenario (p : @Promise Wire) : option Outcome :=
  match p with
  | Pending => None
  | Fulfilled _ => Some Passes
  | Rejected err =>
    Some (Throws (mkError
      ("Unexpected subscription message received during idle timeout: "
       +:+ message err)%string))
  end.

(** ** Scenarios

    Concrete clients over frames named by their channel, used to run the
    model. *)

Definition is_ticker (msg : string) : bool := String.eqb msg "ticker".

Definition ticker : @Condition string := pure is_ticker.

Definition any_message : @Condition string := pure (λ _, true).

(** Two ticker updates, a heartbeat between them, then a third update. *)
Definition ticker_feed : list (@Event string) :=
  [Inbound "ticker"; Inbound "heartbeat"; Inbound "ticker"; Inbound "ticker"]%string.

(** Only status and heartbeat frames. *)
Definition idle_feed : list (@Event string) :=
  [Inbound "status"; Inbound "heartbeat"; Inbound "heartbeat"]%string.

(** The client a run leaves behind ([new_client] if it does not return). *)
Definition after (fuel : nat) (evs : list (@Event string)) (st : @Client string)
  : @Client string :=
  match run fuel evs st with Ok st' => st' | _ => new_client end.

(** A client whose only waiter has a predicate that, when evaluated,
    starts another wait for any one message and then answers [false]. *)
Definition reentrant : @Condition string :=
  λ _, WaitFor any_message (Integer 1) (Integer 1000) (Return false).

Definition reentrant_client : @Client string :=
  (waitFor reentrant (Integer 1) (Integer 8000) new_client).2.

(** A client with two waiters: the first one's predicate throws, the
    second one waits for any one message. *)
Definition throwing : @Condition string := λ _, Throw (mkError "boom").

Definition throwing_client : @Client string :=
  (waitFor any_message (Integer 1) (Integer 8000) (waitFor throwing (Integer 1) (Integer 8000) new_client).2).2.

(** A client with one [waitForSilence] on every message. *)
Definition silence_client : @Client string :=
  (waitForSilence any_message (Integer 5000) new_client).2.

(** Two ticker updates with a heartbeat between them. *)
Definition short_feed : list (@Event string) :=
  [Inbound "ticker"; Inbound "heartbeat"; Inbound "ticker"]%string.

(** A client whose [waitFor(ticker, 1, 8000)] has been resolved by a
    ticker update, and the closures of that call. *)
Definition resolved_client : @Client string :=
  after 1 [Inbound "ticker"%string] (waitFor ticker (Integer 1) (Integer 8000) new_client).2.

Definition resolved_call : @Call string :=
  mkCall (COLLECT (Integer 1)) ticker (Integer 8000) ["ticker"%string] Cleared
         (Fulfilled (Messages ["ticker"%string])).

(** A client whose [waitForSilence] has been failed by a status frame, and
    the closures of that call. *)
Definition disturbed_client : @Client string :=
  after 1 [Inbound "status"%string] silence_client.

Definition disturbed_call : @Call string :=
  mkCall SILENCE any_message (Integer 5000) [] Cleared (Rejected silence_error).

(** The claim that the listener walks a copy of the set taken when the
    dispatch starts: the handlers called are those of the copy. *)
Definition walks_a_snapshot : Prop :=
  ∀ (st : @Client string) fuel msg log st',
    reachable st → dispatch fuel msg st = (log, Ok st') → log = snapshot st.

(** The claim that a predicate's exception never leaves the listener. *)
Definition exceptions_contained : Prop :=
  ∀ (st : @Client string) fuel msg log e st',
    reachable st → dispatch fuel msg st ≠ (log, Uncaught e st').

(** The claim that the error of a failed [waitForSilence] carries the
    offending message: the message can be read back from the error. *)
Definition error_carries_message : Prop :=
  ∃ offending : Error → string,
    ∀ msg st' e,
      run 1 [Inbound msg] silence_client = Ok st' →
      promise_of 0 st' = Some (Rejected e) → offending e = msg.

(** A client whose [waitFor(ticker, 2, 8000)] has taken one ticker update
    and then run out of time, and the closures of that call. *)
Definition expired_client : @Client string :=
  after 1 [Inbound "ticker"%string; TimerDue 0]
        (waitFor ticker (Integer 2) (Integer 8000) new_client).2.

Definition expired_call : @Call string :=
  mkCall (COLLECT (Integer 2)) ticker (Integer 8000) ["ticker"%string] Fired
         (Rejected (timeout_error 1 (Integer 2))).

(** The frames of the idle-connection scenario: a status frame and a
    heartbeat, then (in the noisy feed) a ticker update. *)
Definition status_frame : Wire := mkWire (Some "status"%string) (Some "update"%string) None.
Definition heartbeat_frame : Wire := mkWire (Some "heartbeat"%string) None None.
Definition ticker_frame : Wire :=
  mkWire (Some "ticker"%string) (Some "update"%string)
         (Some [mkItem (Some "BTC/USD"%string)]).

Definition noisy_feed : list (@Event Wire) :=
  [Inbound status_frame; Inbound heartbeat_frame; Inbound ticker_frame].

(** The client the idle-connection scenario leaves behind on the noisy
    feed ([new_client] if the run does not return). *)
Definition noisy_client : @Client Wire :=
  match run 1 noisy_feed
            (waitForSilence (pure unexpected) (Integer 10000) new_client).2 with
  | Ok st' => st'
  | _ => new_client
  end.

Section Proofs.
Context {Message : Type}.
Implicit Types (st : @Client Message) (c : @Call Message) (msg : Message).
Implicit Types (s : list (option nat)) (h w id : nat).

(** ** The handler set *)

Lemma Set_delete_length h s : length (Set_delete h s) = length s.
Proof. apply length_fmap. Qed.

Lemma Set_delete_lookup_ne h s i e :
  s !! i = Some e → e ≠ Some h → Set_delete h s !! i = Some e.
Proof.
  intros Hi Hne. unfold Set_delete. rewrite list_lookup_fmap, Hi. simpl.
  by case_decide.
Qed.

Lemma Set_delete_lookup_Some h s i w :
  Set_delete h s !! i = Some (Some w) ↔ s !! i = Some (Some w) ∧ w ≠ h.
Proof.
  unfold Set_delete. rewrite list_lookup_fmap.
  destruct (s !! i) as [e|]; simpl.
  - case_decide as He.
    + subst e. split; [done|]. by intros [[= ->] Hne].
    + split; [|by intros [[= ->] _]].
      intros [= ->]. split; [done|congruence].
  - split; [done|]. by intros [? _].
Qed.

Lemma Set_delete_idemp h s : Set_delete h (Set_delete h s) = Set_delete h s.
Proof.
  unfold Set_delete. rewrite <- list_fmap_compose. apply list_fmap_ext.
  intros i e _. simpl. repeat case_decide; congruence.
Qed.

Lemma elem_of_Set_delete h w s : Some w ∈ Set_delete h s ↔ Some w ∈ s ∧ w ≠ h.
Proof.
  rewrite !list_elem_of_lookup. setoid_rewrite Set_delete_lookup_Some.
  split.
  - intros (i & Hi & Hne). eauto.
  - intros [[i Hi] Hne]. eauto.
Qed.

Lemma alter_as_insert {A} (f : A → A) (l : list A) i x :
  l !! i = Some x → alter f i l = <[i := f x]> l.
Proof.
  intros Hi. apply list_eq. intros j.
  destruct (decide (i = j)) as [->|Hne].
  - rewrite list_lookup_alter_eq, Hi, list_lookup_insert_eq; [done|].
    by eapply lookup_lt_Some.
  - by rewrite list_lookup_alter_ne, list_lookup_insert_ne.
Qed.

(** ** Predicates only register *)

Lemma grown_refl st : grown st st.
Proof. exists []. simpl. by rewrite !app_nil_r. Qed.

Lemma grown_trans st1 st2 st3 : grown st1 st2 → grown st2 st3 → grown st1 st3.
Proof.
  intros (e1 & Hc1 & Hm1) (e2 & Hc2 & Hm2). exists (e1 ++ e2).
  rewrite Hc2, Hm2, Hc1, Hm1, <- !app_assoc. split; [done|].
  f_equal. by rewrite !length_app, seq_app, fmap_app.
Qed.

Lemma grown_lookup st st' id c :
  grown st st' → calls st !! id = Some c → calls st' !! id = Some c.
Proof. intros (e & -> & _). apply lookup_app_l_Some. Qed.

Lemma grown_length st st' : grown st st' → length (calls st) ≤ length (calls st').
Proof. intros (e & -> & _). rewrite length_app. lia. Qed.


Lemma grown_handlers st st' i e :
  grown st st' → messageHandlers st !! i = Some e →
  messageHandlers st' !! i = Some e.
Proof. intros (x & _ & ->). apply lookup_app_l_Some. Qed.

Lemma exec_verdict (r : @Run Message) st : (exec r st).1 = verdict r.
Proof. revert st. induction r; intros st; simpl; auto. Qed.

Lemma wf_new : wf (@new_client Message).
Proof.
  split; unfold registered; simpl.
  - intros id Hin. by apply elem_of_nil in Hin.
  - intros id c Hc. by rewrite lookup_nil in Hc.
  - intros i j h Hi. by rewrite lookup_nil in Hi.
Qed.

Lemma wf_bound st id : wf st → registered id st → id < length (calls st).
Proof.
  intros Hwf Hr. destruct (wf_registered _ Hwf _ Hr) as (c & Hc & _).
  by eapply lookup_lt_Some.
Qed.

Lemma register_shape m (cond : @Condition Message) t st :
  wf st →
  (register m cond t st).2 =
  mkClient (messageHandlers st ++ [Some (length (calls st))])
           (calls st ++ [mkCall m cond t [] Armed Pending]).
Proof.
  intros Hwf. unfold register, Set_add. simpl. case_decide as Hin; [|done].
  apply (wf_bound _ _ Hwf) in Hin. lia.
Qed.

Lemma register_grown m (cond : @Condition Message) t st :
  wf st → grown st (register m cond t st).2.
Proof.
  intros Hwf. rewrite register_shape by done.
  by exists [mkCall m cond t [] Armed Pending].
Qed.

Lemma wf_register m (cond : @Condition Message) t st :
  wf st → wf (register m cond t st).2.
Proof.
  intros Hwf. rewrite register_shape by done.
  split; unfold registered; simpl.
  - intros id [Hin| ->%list_elem_of_singleton%(inj Some)]%elem_of_app.
    + destruct (wf_registered _ Hwf _ Hin) as (c & Hc & Hp).
      exists c. split; [by apply lookup_app_l_Some|done].
    + eexists. split; [apply list_lookup_middle; done|done].
  - intros id c [Hc|[Hlen Hc]]%lookup_app_Some.
    + destruct (wf_call _ Hwf _ _ Hc) as [Hok Hreg].
      split; [done|]. intros Hp. apply elem_of_app. left. by apply Hreg.
    + destruct (id - length (calls st)) as [|k] eqn:Hk; [|done].
      simplify_eq/=. split; [done|]. intros _. apply elem_of_app. right.
      apply list_elem_of_singleton. f_equal. lia.
  - intros i j h Hi Hj.
    apply lookup_app_Some in Hi as [Hi|[Hli Hi]];
      apply lookup_app_Some in Hj as [Hj|[Hlj Hj]].
    + by eapply wf_unique.
    + apply list_lookup_singleton_Some in Hj as [_ [= <-]].
      apply list_elem_of_lookup_2, (wf_bound _ _ Hwf) in Hi. lia.
    + apply list_lookup_singleton_Some in Hi as [_ [= <-]].
      apply list_elem_of_lookup_2, (wf_bound _ _ Hwf) in Hj. lia.
    + apply list_lookup_singleton_Some in Hi as [Hi _].
      apply list_lookup_singleton_Some in Hj as [Hj _]. lia.
Qed.

Lemma exec_grown (r : @Run Message) st :
  wf st → wf (exec r st).2 ∧ grown st (exec r st).2.
Proof.
  revert st. induction r as [b|e|cond _ n t k IH|cond _ t k IH]; intros st Hwf; simpl.
  - split; [done|apply grown_refl].
  - split; [done|apply grown_refl].
  - destruct (IH (waitFor cond n t st).2) as [Hwf' Hg]; [by apply wf_register|].
    split; [done|]. eapply grown_trans; [|done]. by apply register_grown.
  - destruct (IH (waitForSilence cond t st).2) as [Hwf' Hg]; [by apply wf_register|].
    split; [done|]. eapply grown_trans; [|done]. by apply register_grown.
Qed.

(** ** The callbacks in closed form *)

Lemma place_same h c st : calls st !! h = Some c → promise c = Pending → place h c st = st.
Proof.
  intros Hc Hp. unfold place. rewrite Hp. simpl. rewrite list_insert_id by done.
  by destruct st.
Qed.

Lemma handler_shape h msg st c :
  wf st → calls st !! h = Some c → promise c = Pending →
  handler h msg st =
  match verdict (condition c msg) with
  | Abrupt e => Uncaught e (exec (condition c msg) st).2
  | Normal _ => Ok (place h (receive msg c) (exec (condition c msg) st).2)
  end.
Proof.
  intros Hwf Hc Hp. unfold handler. rewrite Hc.
  pose proof (exec_verdict (condition c msg) st) as Hv.
  destruct (exec_grown (condition c msg) st Hwf) as [_ Hg].
  destruct (exec (condition c msg) st) as [v st1]. simpl in *. subst v.
  pose proof (grown_lookup _ _ _ _ Hg Hc) as Hc1.
  assert (timer c = Armed) as Ht.
  { destruct (wf_call _ Hwf _ _ Hc) as [Hok _]. unfold call_ok in Hok.
    by rewrite Hp in Hok. }
  unfold receive.
  destruct (verdict (condition c msg)) as [[|]|e]; [| |done].
  - destruct (mode c) as [n|] eqn:Hm.
    + unfold results_of, update_call. simpl.
      rewrite list_lookup_alter_eq, Hc1. simpl. case_decide.
      * f_equal. unfold resolve, cleanup, clearTimeout, update_call, place.
        simpl. rewrite Hp. simpl. f_equal.
        rewrite !list_alter_alter_eq, (alter_as_insert _ _ _ _ Hc1).
        f_equal. unfold compose, push, set_promise, set_results, set_timer.
        simpl. by rewrite Ht, Hp, Hm.
      * f_equal. unfold place. simpl. rewrite Hp. simpl. f_equal.
        by rewrite (alter_as_insert _ _ _ _ Hc1).
    + f_equal. unfold reject, cleanup, clearTimeout, update_call, place.
      simpl. rewrite Hp. simpl. f_equal.
      rewrite !list_alter_alter_eq, (alter_as_insert _ _ _ _ Hc1).
      f_equal. unfold compose, set_promise, set_timer. simpl.
      by rewrite Ht, Hp, Hm.
  - by rewrite place_same.
Qed.

Lemma on_timeout_shape id st c :
  calls st !! id = Some c →
  on_timeout id st =
  match timer c with Armed => place id (expire c) st | _ => st end.
Proof.
  intros Hc. unfold on_timeout. rewrite Hc.
  destruct (timer c) eqn:Ht; [|done|done].
  assert (is_pending (promise (expire c)) = false) as Hs.
  { unfold expire. simpl. by destruct (promise c), (mode c). }
  unfold place. rewrite Hs.
  destruct (mode c) as [n|] eqn:Hm.
  - unfold reject, cleanup, clearTimeout, update_call, results_of. simpl.
    rewrite !list_alter_alter_eq, list_lookup_alter_eq, Hc. simpl.
    rewrite (alter_as_insert _ _ _ _ Hc). f_equal. f_equal.
    unfold compose, expire, set_promise, set_timer. simpl. by rewrite Hm.
  - unfold resolve, cleanup, clearTimeout, update_call. simpl.
    rewrite !list_alter_alter_eq, (alter_as_insert _ _ _ _ Hc). f_equal. f_equal.
    unfold compose, expire, set_promise, set_timer. simpl. by rewrite Hm.
Qed.

(** ** The invariant is kept *)

Lemma call_ok_armed c : call_ok c → timer c = Armed → promise c = Pending.
Proof.
  unfold call_ok. intros Hok Ht.
  destruct (promise c), (mode c); try done; destruct Hok as [Hok _]; congruence.
Qed.

Lemma receive_ok c msg : call_ok c → promise c = Pending → call_ok (receive msg c).
Proof.
  intros Hok Hp. unfold receive.
  destruct (verdict (condition c msg)) as [[|]|e]; [|done|done].
  destruct (mode c) as [n|] eqn:Hm.
  - case_decide; unfold call_ok in *; simpl; rewrite Hp in *; simpl; rewrite ?Hm; done.
  - unfold call_ok. simpl. by rewrite Hp.
Qed.

Lemma expire_ok c : call_ok c → timer c = Armed → call_ok (expire c).
Proof.
  intros Hok Ht. pose proof (call_ok_armed _ Hok Ht) as Hp.
  unfold call_ok, expire. simpl. rewrite Hp. simpl. by destruct (mode c).
Qed.

Lemma wf_place h c c' st :
  wf st → calls st !! h = Some c → call_ok c' →
  (promise c' = Pending → promise c = Pending) →
  wf (place h c' st).
Proof.
  intros Hwf Hc Hok Hp. pose proof (lookup_lt_Some _ _ _ Hc) as Hlt.
  unfold place. destruct (is_pending (promise c')) eqn:Hpe.
  - assert (promise c' = Pending) as Hp' by (by destruct (promise c')).
    split; unfold registered; simpl.
    + intros id Hin. destruct (decide (id = h)) as [->|Hne].
      * exists c'. by rewrite list_lookup_insert_eq.
      * rewrite list_lookup_insert_ne by done. by apply (wf_registered _ Hwf).
    + intros id c0. destruct (decide (id = h)) as [->|Hne].
      * rewrite list_lookup_insert_eq by done. intros [= <-]. split; [done|].
        intros _. apply (wf_call _ Hwf _ _ Hc). auto.
      * rewrite list_lookup_insert_ne by done. apply (wf_call _ Hwf).
    + apply (wf_unique _ Hwf).
  - assert (promise c' ≠ Pending) as Hp' by (by destruct (promise c')).
    split; unfold registered; simpl.
    + intros id [Hin Hne]%elem_of_Set_delete.
      rewrite list_lookup_insert_ne by done. by apply (wf_registered _ Hwf).
    + intros id c0. destruct (decide (id = h)) as [->|Hne].
      * rewrite list_lookup_insert_eq by done. by intros [= <-].
      * rewrite list_lookup_insert_ne by done. intros Hc0.
        destruct (wf_call _ Hwf _ _ Hc0) as [Hok0 Hreg]. split; [done|].
        intros Hp0. apply elem_of_Set_delete. split; [by apply Hreg|done].
    + intros i j w [Hi _]%Set_delete_lookup_Some [Hj _]%Set_delete_lookup_Some.
      by eapply wf_unique.
Qed.

Lemma wf_handler h msg st st' :
  wf st → registered h st → final (handler h msg st) = Some st' → wf st'.
Proof.
  intros Hwf Hr. destruct (wf_registered _ Hwf _ Hr) as (c & Hc & Hp).
  rewrite (handler_shape _ _ _ _ Hwf Hc Hp).
  destruct (exec_grown (condition c msg) st Hwf) as [Hwf1 Hg].
  destruct (verdict (condition c msg)) as [b|e]; simpl; intros [= <-]; [|done].
  eapply wf_place; [done|by eapply grown_lookup| |done].
  apply receive_ok; [|done]. by apply (wf_call _ Hwf _ _ Hc).
Qed.

Lemma wf_on_timeout id st : wf st → wf (on_timeout id st).
Proof.
  intros Hwf. destruct (calls st !! id) as [c|] eqn:Hc.
  - rewrite (on_timeout_shape _ _ _ Hc). destruct (timer c) eqn:Ht; [|done|done].
    destruct (wf_call _ Hwf _ _ Hc) as [Hok _].
    eapply wf_place; [done|done|by apply expire_ok|].
    intros _. by apply call_ok_armed.
  - unfold on_timeout. by rewrite Hc.
Qed.


(** ** One handler call *)

Lemma grown_news st st' :
  grown st st' →
  messageHandlers st' = messageHandlers st ++ (Some <$> news st st').
Proof.
  intros (x & Hc & ->). unfold news. rewrite Hc, length_app.
  do 3 f_equal. lia.
Qed.

Lemma place_drop i h c' st :
  wf st → messageHandlers st !! i = Some (Some h) →
  drop (S i) (messageHandlers (place h c' st)) = drop (S i) (messageHandlers st).
Proof.
  intros Hwf Hi. unfold place. simpl. destruct (is_pending (promise c')); [done|].
  apply list_eq. intros j. rewrite !lookup_drop.
  destruct (messageHandlers st !! (S i + j)) as [e|] eqn:He.
  - apply Set_delete_lookup_ne; [done|]. intros ->.
    pose proof (wf_unique _ Hwf _ _ _ Hi He). lia.
  - unfold Set_delete. by rewrite list_lookup_fmap, He.
Qed.

Lemma receive_condition msg c : condition (receive msg c) = condition c.
Proof.
  unfold receive. destruct (verdict (condition c msg)) as [[|]|]; [|done|done].
  destruct (mode c); [case_decide|]; done.
Qed.

Lemma handler_Ok_post i h msg st st1 :
  wf st → messageHandlers st !! i = Some (Some h) →
  handler h msg st = Ok st1 →
  wf st1 ∧
  (∃ c b, calls st !! h = Some c ∧ promise c = Pending ∧
          verdict (condition c msg) = Normal b ∧
          calls st1 !! h = Some (receive msg c)) ∧
  (∀ w c, w ≠ h → calls st !! w = Some c → calls st1 !! w = Some c) ∧
  length (calls st) ≤ length (calls st1) ∧
  drop (S i) (messageHandlers st1) =
    drop (S i) (messageHandlers st) ++ (Some <$> news st st1).
Proof.
  intros Hwf Hi Hh.
  assert (registered h st) as Hr by (by eapply list_elem_of_lookup_2).
  split; [eapply wf_handler; [done..|by rewrite Hh]|].
  destruct (wf_registered _ Hwf _ Hr) as (c & Hc & Hp).
  rewrite (handler_shape _ _ _ _ Hwf Hc Hp) in Hh.
  destruct (exec_grown (condition c msg) st Hwf) as [Hwf1 Hg].
  destruct (verdict (condition c msg)) as [b|e] eqn:Hv; [|done].
  injection Hh as <-.
  set (stg := (exec (condition c msg) st).2) in *.
  pose proof (grown_lookup _ _ _ _ Hg Hc) as Hcg.
  pose proof (lookup_lt_Some _ _ _ Hcg) as Hlt.
  assert (length (calls (place h (receive msg c) stg)) = length (calls stg)) as Hlen.
  { unfold place. simpl. apply length_insert. }
  split; [|split; [|split]].
  - exists c, b. repeat split; try done.
    unfold place. simpl. by rewrite list_lookup_insert_eq.
  - intros w c0 Hne Hc0. unfold place. simpl.
    rewrite list_lookup_insert_ne by done. by eapply grown_lookup.
  - rewrite Hlen. by apply grown_length.
  - rewrite (place_drop i) by (done || by eapply grown_handlers).
    rewrite (grown_news _ _ Hg), drop_app_le
      by apply (lookup_lt_Some _ _ _ Hi).
    unfold news. by rewrite Hlen.
Qed.

Lemma handler_Uncaught_post h msg st e st1 :
  wf st → registered h st → handler h msg st = Uncaught e st1 →
  wf st1 ∧ grown st st1 ∧
  ∃ c, calls st !! h = Some c ∧ promise c = Pending ∧
       verdict (condition c msg) = Abrupt e.
Proof.
  intros Hwf Hr Hh.
  split; [eapply wf_handler; [done..|by rewrite Hh]|].
  destruct (wf_registered _ Hwf _ Hr) as (c & Hc & Hp).
  rewrite (handler_shape _ _ _ _ Hwf Hc Hp) in Hh.
  destruct (exec_grown (condition c msg) st Hwf) as [Hwf1 Hg].
  destruct (verdict (condition c msg)) as [b|e'] eqn:Hv; [done|].
  injection Hh as <- <-. split; [done|]. by exists c.
Qed.

(** ** The walk over the handler set *)

Lemma forEach_walks fuel msg index st log r :
  forEach fuel msg index st = (log, r) → walks msg index st log r.
Proof.
  revert index st log r. induction fuel as [|fuel IH]; intros index st log r; simpl.
  - destruct (messageHandlers st !! index) as [e|] eqn:He; intros [= <- <-].
    + by eapply walk_dry.
    + by apply walk_end.
  - destruct (messageHandlers st !! index) as [[h|]|] eqn:He.
    + destruct (handler h msg st) as [st1|e st1|] eqn:Hh.
      * destruct (forEach fuel msg (S index) st1) as [log' r'] eqn:Hf.
        intros [= <- <-]. eapply walk_call; eauto.
      * intros [= <- <-]. by eapply walk_throw.
      * intros [= <- <-]. by eapply walk_stuck.
    + intros Hf. apply walk_skip; auto.
    + intros [= <- <-]. by apply walk_end.
Qed.

Lemma walks_wf msg index st log r :
  walks msg index st log r → wf st → ∀ st', final r = Some st' → wf st'.
Proof.
  induction 1 as [i st Hi|i st e Hi|i st log r Hi Hw IH|i st h st1 log r Hi Hh Hw IH
                 |i st h e st1 Hi Hh|i st h Hi Hh]; intros Hwf st'; simpl.
  - by intros [= <-].
  - done.
  - by apply IH.
  - apply IH. eapply wf_handler; [done|by eapply list_elem_of_lookup_2|by rewrite Hh].
  - intros [= <-].
    eapply wf_handler; [done|by eapply list_elem_of_lookup_2|by rewrite Hh].
  - done.
Qed.


Lemma not_in_news st st' w c :
  calls st !! w = Some c → Some w ∉ (Some <$> news st st').
Proof.
  intros Hc [x [[= <-] Hin]]%list_elem_of_fmap.
  apply elem_of_seq in Hin. apply lookup_lt_Some in Hc. lia.
Qed.

Lemma unique_drop st i h :
  wf st → messageHandlers st !! i = Some (Some h) →
  Some h ∉ drop (S i) (messageHandlers st).
Proof.
  intros Hwf Hi [j Hj]%list_elem_of_lookup. rewrite lookup_drop in Hj.
  pose proof (wf_unique _ Hwf _ _ _ Hi Hj). lia.
Qed.

Ltac walks_cases H :=
  induction H as [i st Hi|i st e Hi|i st log r Hi Hw IH
                 |i st h st1 log r Hi Hh Hw IH|i st h e st1 Hi Hh|i st h Hi Hh].

(** The effect of one walk on the closures of call [w]: untouched when its
    handler is not ahead of the walk, called once when it is. *)
Lemma walks_call msg index st log r :
  walks msg index st log r → wf st →
  ∀ w c, calls st !! w = Some c →
    (Some w ∉ drop index (messageHandlers st) →
     ∀ st', final r = Some st' → calls st' !! w = Some c) ∧
    (Some w ∈ drop index (messageHandlers st) →
     ∀ st', r = Ok st' → calls st' !! w = Some (receive msg c)).
Proof.
  intros H. walks_cases H; intros Hwf w c Hc.
  - split.
    + by intros _ st' [= <-].
    + rewrite drop_ge by (by apply lookup_ge_None_1).
      by intros ?%elem_of_nil.
  - split; [by intros _ st' [=]|by intros _ st' [=]].
  - rewrite (drop_S _ _ _ Hi), elem_of_cons.
    destruct (IH Hwf w c Hc) as [IH1 IH2]. split.
    + intros Hn. apply IH1. tauto.
    + intros [[=]|Hin]. by apply IH2.
  - destruct (handler_Ok_post _ _ _ _ _ Hwf Hi Hh)
      as (Hwf1 & (ch & b & Hch & Hph & Hv & Hch1) & Hother & Hlen & Hdrop).
    rewrite (drop_S _ _ _ Hi), elem_of_cons.
    destruct (decide (w = h)) as [->|Hne].
    + assert (ch = c) as -> by congruence.
      destruct (IH Hwf1 h _ Hch1) as [IH1 _].
      assert (Some h ∉ drop (S i) (messageHandlers st1)) as Hout.
      { rewrite Hdrop, elem_of_app. intros [Hin|Hin].
        - exact (unique_drop _ _ _ Hwf Hi Hin).
        - exact (not_in_news _ _ _ _ Hc Hin). }
      split; [tauto|]. intros _ st' ->. by apply IH1.
    + destruct (IH Hwf1 w c (Hother _ _ Hne Hc)) as [IH1 IH2].
      assert (Some w ∈ drop (S i) (messageHandlers st1) ↔
              Some w ∈ drop (S i) (messageHandlers st)) as Hiff.
      { rewrite Hdrop, elem_of_app. split; [|tauto].
        intros [Hin|Hin]; [done|]. destruct (not_in_news _ _ _ _ Hc Hin). }
      split.
      * intros Hn. apply IH1. rewrite Hiff. tauto.
      * intros [[=]|Hin]; [done|]. apply IH2. by rewrite Hiff.
  - assert (registered h st) as Hr by (by eapply list_elem_of_lookup_2).
    destruct (handler_Uncaught_post _ _ _ _ _ Hwf Hr Hh) as (_ & Hg & _).
    split; [|by intros _ st' [=]].
    intros _ st' [= <-]. by eapply grown_lookup.
  - split; [by intros _ st' [=]|by intros _ st' [=]].
Qed.

(** A call whose handler is not in the log is untouched. *)
Lemma walks_frame msg index st log r :
  walks msg index st log r → wf st →
  ∀ w c st', final r = Some st' → w ∉ log →
    calls st !! w = Some c → calls st' !! w = Some c.
Proof.
  intros H. walks_cases H; intros Hwf w c st' Hfin Hlog Hc.
  - by injection Hfin as <-.
  - done.
  - by eapply IH.
  - destruct (handler_Ok_post _ _ _ _ _ Hwf Hi Hh) as (Hwf1 & _ & Hother & _).
    apply not_elem_of_cons in Hlog as [Hne Hlog].
    eapply IH; eauto.
  - assert (registered h st) as Hr by (by eapply list_elem_of_lookup_2).
    destruct (handler_Uncaught_post _ _ _ _ _ Hwf Hr Hh) as (_ & Hg & _).
    injection Hfin as <-. by eapply grown_lookup.
  - done.
Qed.

(** A walk that returns met no predicate that throws. *)
Lemma walks_verdicts msg index st log r :
  walks msg index st log r → wf st →
  ∀ st' h c, r = Ok st' → Some h ∈ drop index (messageHandlers st) →
    calls st !! h = Some c → ∃ b, verdict (condition c msg) = Normal b.
Proof.
  intros H. walks_cases H; intros Hwf st' h0 c Hr Hin Hc; try done.
  - rewrite drop_ge in Hin by (by apply lookup_ge_None_1).
    by apply elem_of_nil in Hin.
  - rewrite (drop_S _ _ _ Hi), elem_of_cons in Hin.
    destruct Hin as [[=]|Hin]. by eapply IH.
  - destruct (handler_Ok_post _ _ _ _ _ Hwf Hi Hh)
      as (Hwf1 & (ch & b & Hch & Hph & Hv & Hch1) & Hother & Hlen & Hdrop).
    destruct (decide (h0 = h)) as [->|Hne].
    + exists b. congruence.
    + rewrite (drop_S _ _ _ Hi), elem_of_cons in Hin.
      destruct Hin as [[=]|Hin]; [done|].
      eapply (IH Hwf1 st' h0 c Hr); [|by apply Hother].
      rewrite Hdrop, elem_of_app. by left.
Qed.

Lemma omap_id_Some (l : list nat) : omap id (Some <$> l) = l.
Proof. induction l as [|x l IH]; [done|]. csimpl. by rewrite IH. Qed.

(** The handlers a returning walk calls: the live entries ahead of it, in
    insertion order, then every handler registered during the walk. *)
Lemma walks_log msg index st log r :
  walks msg index st log r → wf st →
  ∀ st', r = Ok st' →
    length (calls st) ≤ length (calls st') ∧
    log = omap id (drop index (messageHandlers st)) ++ news st st'.
Proof.
  intros H. walks_cases H; intros Hwf st' Hr; try done.
  - injection Hr as <-. split; [done|].
    rewrite drop_ge by (by apply lookup_ge_None_1).
    unfold news. by rewrite Nat.sub_diag.
  - rewrite (drop_S _ _ _ Hi). by apply IH.
  - destruct (handler_Ok_post _ _ _ _ _ Hwf Hi Hh)
      as (Hwf1 & _ & _ & Hlen & Hdrop).
    destruct (IH Hwf1 st' Hr) as [Hlen' ->]. split; [lia|].
    rewrite (drop_S _ _ _ Hi), Hdrop, omap_app, omap_id_Some. csimpl.
    rewrite <- app_assoc. do 2 f_equal. unfold news.
    replace (length (calls st') - length (calls st))
      with ((length (calls st1) - length (calls st)) +
            (length (calls st') - length (calls st1))) by lia.
    rewrite seq_app. do 2 f_equal. lia.
Qed.

(** A walk that throws stopped at a registered, still pending call whose
    predicate threw. *)
Lemma walks_thrower msg index st log r :
  walks msg index st log r → wf st →
  ∀ e st', r = Uncaught e st' →
    ∃ h c, last log = Some h ∧ registered h st' ∧
           calls st' !! h = Some c ∧ promise c = Pending ∧
           verdict (condition c msg) = Abrupt e.
Proof.
  intros H. walks_cases H; intros Hwf e0 st' Hr; try done.
  - by apply IH.
  - destruct (handler_Ok_post _ _ _ _ _ Hwf Hi Hh) as (Hwf1 & _).
    destruct (IH Hwf1 e0 st' Hr) as (h0 & c & Hlast & Hrest).
    exists h0, c. split; [|done]. rewrite last_cons. by rewrite Hlast.
  - injection Hr as <- <-.
    assert (registered h st) as Hreg by (by eapply list_elem_of_lookup_2).
    destruct (handler_Uncaught_post _ _ _ _ _ Hwf Hreg Hh)
      as (_ & Hg & c & Hc & Hp & Hv).
    exists h, c. repeat split; try done.
    + unfold registered. eapply list_elem_of_lookup_2. by eapply grown_handlers.
    + by eapply grown_lookup.
Qed.


(** ** Events and runs *)

Lemma wf_step fuel (ev : @Event Message) st st' :
  wf st → final (step fuel ev st) = Some st' → wf st'.
Proof.
  intros Hwf. destruct ev as [msg|id|cond n t|cond t]; simpl.
  - unfold dispatch. destruct (forEach fuel msg 0 st) as [log r] eqn:Hf.
    apply forEach_walks in Hf. simpl. by eapply walks_wf.
  - intros [= <-]. by apply wf_on_timeout.
  - intros [= <-]. by apply wf_register.
  - intros [= <-]. by apply wf_register.
Qed.

Lemma reachable_wf st : reachable st → wf st.
Proof. induction 1; [apply wf_new|by eapply wf_step]. Qed.

Lemma wf_run fuel (evs : list (@Event Message)) st st' :
  wf st → run fuel evs st = Ok st' → wf st'.
Proof.
  revert st. induction evs as [|ev evs IH]; intros st Hwf; simpl.
  - by intros [= <-].
  - destruct (step fuel ev st) as [st1| |] eqn:Hs; [|done|done].
    apply IH. eapply wf_step; [done|by rewrite Hs].
Qed.

Lemma registered_pending st w c :
  wf st → calls st !! w = Some c → registered w st ↔ promise c = Pending.
Proof.
  intros Hwf Hc. split.
  - intros Hr. destruct (wf_registered _ Hwf _ Hr) as (c' & Hc' & Hp). congruence.
  - by apply (wf_call _ Hwf).
Qed.

Lemma on_timeout_other id w st c :
  id ≠ w → calls st !! w = Some c → calls (on_timeout id st) !! w = Some c.
Proof.
  intros Hne Hc. destruct (calls st !! id) as [c0|] eqn:Hc0.
  - rewrite (on_timeout_shape _ _ _ Hc0). destruct (timer c0); [|done|done].
    unfold place. simpl. by rewrite list_lookup_insert_ne.
  - unfold on_timeout. by rewrite Hc0.
Qed.

Lemma on_timeout_self w st c :
  calls st !! w = Some c →
  calls (on_timeout w st) !! w =
  Some (match timer c with Armed => expire c | _ => c end).
Proof.
  intros Hc. rewrite (on_timeout_shape _ _ _ Hc).
  destruct (timer c); [|done|done].
  unfold place. simpl. rewrite list_lookup_insert_eq; [done|].
  by eapply lookup_lt_Some.
Qed.

Lemma register_lookup m (cond : @Condition Message) t st w c :
  calls st !! w = Some c → calls (register m cond t st).2 !! w = Some c.
Proof. intros Hc. unfold register. simpl. by apply lookup_app_l_Some. Qed.

(** What an event whose callback returns does to call [w]. *)
Lemma step_call fuel (ev : @Event Message) st st' w c :
  wf st → calls st !! w = Some c → step fuel ev st = Ok st' →
  calls st' !! w = Some (call_step w ev c).
Proof.
  intros Hwf Hc. destruct ev as [msg|id|cond n t|cond t]; simpl.
  - unfold dispatch. destruct (forEach fuel msg 0 st) as [log r] eqn:Hf.
    apply forEach_walks in Hf. simpl. intros ->.
    destruct (walks_call _ _ _ _ _ Hf Hwf w c Hc) as [H1 H2]. simpl in *.
    destruct (is_pending (promise c)) eqn:Hp.
    + apply H2; [|done]. apply (registered_pending _ _ _ Hwf Hc).
      by destruct (promise c).
    + apply H1; [|done]. intros Hr%(registered_pending _ _ _ Hwf Hc).
      by rewrite Hr in Hp.
  - intros [= <-]. case_decide as Hid.
    + subst id. by apply on_timeout_self.
    + by apply on_timeout_other.
  - intros [= <-]. by apply register_lookup.
  - intros [= <-]. by apply register_lookup.
Qed.

(** Nothing touches the closures of a settled call, whether the callback
    returns or throws. *)
Lemma step_settled fuel (ev : @Event Message) st st' w c :
  wf st → calls st !! w = Some c → promise c ≠ Pending →
  final (step fuel ev st) = Some st' → calls st' !! w = Some c.
Proof.
  intros Hwf Hc Hp. destruct ev as [msg|id|cond n t|cond t]; simpl.
  - unfold dispatch. destruct (forEach fuel msg 0 st) as [log r] eqn:Hf.
    apply forEach_walks in Hf. simpl. intros Hfin.
    destruct (walks_call _ _ _ _ _ Hf Hwf w c Hc) as [H1 _].
    apply H1; [|done]. simpl. by intros Hr%(registered_pending _ _ _ Hwf Hc).
  - intros [= <-]. destruct (decide (id = w)) as [->|Hne].
    + rewrite (on_timeout_self _ _ _ Hc).
      destruct (timer c) eqn:Ht; [|done|done].
      destruct Hp. apply call_ok_armed; [|done]. by apply (wf_call _ Hwf _ _ Hc).
    + by apply on_timeout_other.
  - intros [= <-]. by apply register_lookup.
  - intros [= <-]. by apply register_lookup.
Qed.

Lemma run_call fuel (evs : list (@Event Message)) st st' w c :
  wf st → calls st !! w = Some c → run fuel evs st = Ok st' →
  calls st' !! w = Some (foldl (λ c ev, call_step w ev c) c evs).
Proof.
  revert st c. induction evs as [|ev evs IH]; intros st c Hwf Hc; simpl.
  - by intros [= <-].
  - destruct (step fuel ev st) as [st1| |] eqn:Hs; [|done|done].
    apply IH.
    + eapply wf_step; [done|by rewrite Hs].
    + by eapply step_call.
Qed.


(** ** One call through a run *)

Lemma settled_fold w c (evs : list (@Event Message)) :
  promise c ≠ Pending → timer c ≠ Armed →
  foldl (λ c ev, call_step w ev c) c evs = c.
Proof.
  intros Hp Ht. induction evs as [|ev evs IH]; [done|]. simpl.
  replace (call_step w ev c) with c; [done|].
  destruct ev as [msg|id| |]; simpl; try done.
  - by destruct (promise c).
  - case_decide; [|done]. by destruct (timer c).
Qed.

Lemma call_step_mode w (ev : @Event Message) c : mode (call_step w ev c) = mode c.
Proof.
  destruct ev as [msg|id| |]; simpl; try done.
  - destruct (is_pending (promise c)); [|done]. unfold receive.
    destruct (verdict (condition c msg)) as [[|]|]; [|done|done].
    destruct (mode c) eqn:Hm; [case_decide|]; simpl; by rewrite ?Hm.
  - case_decide; [|done]. by destruct (timer c).
Qed.

Lemma foldl_call_step_mode w (evs : list (@Event Message)) c :
  mode (foldl (λ c ev, call_step w ev c) c evs) = mode c.
Proof.
  revert c. induction evs as [|ev evs IH]; intros c; [done|]. simpl.
  by rewrite IH, call_step_mode.
Qed.

(** A pending [waitFor] call over a run in which its timer does not fire:
    it resolves with the first [N] matches once the [N]-th has arrived, and
    otherwise holds every match so far. *)
Lemma collect_fold w (P : Message → bool) (count : number)
    (evs : list (@Event Message)) :
  ∀ c, decides (condition c) P → mode c = COLLECT count →
    promise c = Pending → timer c = Armed → TimerDue w ∉ evs →
    let all := results c ++ filter P (inbound evs) in
    let c' := foldl (λ c ev, call_step w ev c) c evs in
    (∀ N : Z, count = Integer N →
     (Z.of_nat (length (results c)) < N ≤ Z.of_nat (length all))%Z →
     results c' = take (Z.to_nat N) all ∧
     promise c' = Fulfilled (Messages (take (Z.to_nat N) all)) ∧
     timer c' = Cleared) ∧
    ((∀ n : nat, length (results c) < n ≤ length all →
        Integer (Z.of_nat n) ≠ count) →
     results c' = all ∧ promise c' = Pending ∧ timer c' = Armed).
Proof.
  induction evs as [|ev evs IH]; intros c Hd Hm Hp Ht Hno; simpl.
  - rewrite app_nil_r. split; [intros; lia|done].
  - apply not_elem_of_cons in Hno as [Hne Hno].
    destruct ev as [msg|id|cond n t|cond t]; simpl.
    + rewrite Hp. simpl. rewrite filter_cons.
      unfold receive. rewrite (Hd msg), Hm.
      destruct (P msg) eqn:HP; simpl.
      * case_decide as Hlen.
        -- rewrite settled_fold by (simpl; by rewrite ?Hp).
           simpl. rewrite Hp. simpl.
           rewrite length_app in Hlen. simpl in Hlen. split.
           ++ intros N HN _. rewrite HN in Hlen. injection Hlen as Hlen.
              assert (take (Z.to_nat N) (results c ++ msg :: filter P (inbound evs))
                      = results c ++ [msg]) as ->; [|done].
              rewrite (cons_middle msg), app_assoc.
              apply take_app_length'. rewrite length_app. simpl. lia.
           ++ intros Hn. destruct (Hn (length (results c) + 1)); [|done].
              rewrite length_app. simpl. lia.
        -- destruct (IH (set_results (results c ++ [msg]) c)) as [IH1 IH2];
             try done.
           simpl in IH1, IH2. rewrite <- app_assoc in IH1, IH2. simpl in IH1, IH2.
           rewrite length_app in Hlen, IH1, IH2. simpl in Hlen, IH1, IH2.
           split.
           ++ intros N HN Hr. apply IH1; [done|]. split; [|lia].
              destruct (decide (N = Z.of_nat (length (results c) + 1)))
                as [->|]; [|lia]. by rewrite HN in Hlen.
           ++ intros Hn. apply IH2. intros n Hr. apply Hn. lia.
      * by apply IH.
    + rewrite decide_False by congruence. by apply IH.
    + by apply IH.
    + by apply IH.
Qed.

(** A pending [waitForSilence] call over a run in which its timer does not
    fire: untouched while nothing matches, rejected by the first match. *)
Lemma silence_fold w (P : Message → bool) (evs : list (@Event Message)) :
  ∀ c, decides (condition c) P → mode c = SILENCE →
    promise c = Pending → timer c = Armed → TimerDue w ∉ evs →
    let c' := foldl (λ c ev, call_step w ev c) c evs in
    (filter P (inbound evs) = [] → c' = c) ∧
    (filter P (inbound evs) ≠ [] →
     promise c' = Rejected silence_error ∧ timer c' = Cleared).
Proof.
  induction evs as [|ev evs IH]; intros c Hd Hm Hp Ht Hno; simpl.
  - done.
  - apply not_elem_of_cons in Hno as [Hne Hno].
    destruct ev as [msg|id|cond n t|cond t]; simpl.
    + rewrite Hp. simpl. rewrite filter_cons.
      unfold receive. rewrite (Hd msg), Hm.
      destruct (P msg) eqn:HP; simpl.
      * rewrite settled_fold by (simpl; by rewrite ?Hp).
        simpl. rewrite Hp. simpl. done.
      * by apply IH.
    + rewrite decide_False by congruence. by apply IH.
    + by apply IH.
    + by apply IH.
Qed.

Lemma register_call m (cond : @Condition Message) t st :
  calls (register m cond t st).2 !! (register m cond t st).1 =
  Some (mkCall m cond t [] Armed Pending).
Proof. unfold register. simpl. by apply list_lookup_middle. Qed.

(** ** Runs of well-behaved predicates return *)

Lemma quiet_register m (cond : @Condition Message) t st :
  quiet_client st → quiet cond → quiet_client (register m cond t st).2.
Proof.
  intros Hq Hc id c. unfold register. simpl.
  intros [Hl|[_ Hl]]%lookup_app_Some; [by eapply Hq|].
  apply list_lookup_singleton_Some in Hl as [_ <-]. done.
Qed.

Lemma quiet_place h c c' st :
  quiet_client st → calls st !! h = Some c → condition c' = condition c →
  quiet_client (place h c' st).
Proof.
  intros Hq Hc Hcond id c0. unfold place. simpl.
  destruct (decide (h = id)) as [->|Hne].
  - rewrite list_lookup_insert_eq by (by eapply lookup_lt_Some).
    intros [= <-]. rewrite Hcond. by eapply Hq.
  - rewrite list_lookup_insert_ne by done. apply Hq.
Qed.

Lemma place_handlers_length h c' st :
  length (messageHandlers (place h c' st)) = length (messageHandlers st).
Proof.
  unfold place. simpl. destruct (is_pending (promise c')); [done|].
  apply Set_delete_length.
Qed.

Lemma handler_quiet h msg st :
  wf st → quiet_client st → registered h st →
  ∃ st', handler h msg st = Ok st' ∧ quiet_client st' ∧
         length (messageHandlers st') = length (messageHandlers st).
Proof.
  intros Hwf Hq Hr. destruct (wf_registered _ Hwf _ Hr) as (c & Hc & Hp).
  rewrite (handler_shape _ _ _ _ Hwf Hc Hp).
  destruct (Hq _ _ Hc msg) as [b Hb]. rewrite Hb. simpl.
  eexists. split; [done|]. split.
  - eapply quiet_place; [done..|apply receive_condition].
  - apply place_handlers_length.
Qed.

Lemma forEach_quiet fuel msg index st :
  wf st → quiet_client st → length (messageHandlers st) ≤ index + fuel →
  ∃ log st', forEach fuel msg index st = (log, Ok st') ∧ quiet_client st' ∧
             length (messageHandlers st') = length (messageHandlers st).
Proof.
  revert index st. induction fuel as [|fuel IH]; intros index st Hwf Hq Hlen; simpl.
  - rewrite (proj2 (lookup_ge_None _ _)) by lia. by exists [], st.
  - destruct (messageHandlers st !! index) as [[h|]|] eqn:Hi.
    + assert (registered h st) as Hr by (by eapply list_elem_of_lookup_2).
      destruct (handler_quiet h msg st Hwf Hq Hr) as (st1 & Hh & Hq1 & Hl1).
      rewrite Hh.
      destruct (IH (S index) st1) as (log & st' & Hf & Hq' & Hl'); [|done|lia|].
      { eapply wf_handler; [done..|by rewrite Hh]. }
      rewrite Hf. exists (h :: log), st'. split; [done|]. split; [done|congruence].
    + apply IH; [done..|lia].
    + by exists [], st.
Qed.

Lemma on_timeout_quiet id st :
  quiet_client st →
  quiet_client (on_timeout id st) ∧
  length (messageHandlers (on_timeout id st)) = length (messageHandlers st).
Proof.
  intros Hq. destruct (calls st !! id) as [c|] eqn:Hc.
  - rewrite (on_timeout_shape _ _ _ Hc). destruct (timer c); [|done|done].
    split; [by eapply quiet_place|apply place_handlers_length].
  - unfold on_timeout. by rewrite Hc.
Qed.

Lemma register_handlers_length m (cond : @Condition Message) t st :
  length (messageHandlers (register m cond t st).2)
  ≤ S (length (messageHandlers st)).
Proof.
  unfold register, Set_add. simpl. case_decide; [lia|].
  rewrite length_app. simpl. lia.
Qed.

Lemma run_quiet fuel (evs : list (@Event Message)) st :
  wf st → quiet_client st → Forall quiet_event evs →
  length (messageHandlers st) + length evs ≤ fuel →
  ∃ st', run fuel evs st = Ok st'.
Proof.
  revert st. induction evs as [|ev evs IH]; intros st Hwf Hq Hevs Hlen; simpl.
  - by exists st.
  - apply Forall_cons in Hevs as [Hev Hevs]. simpl in Hlen.
    assert (∃ st1, step fuel ev st = Ok st1 ∧ quiet_client st1 ∧
              length (messageHandlers st1) ≤ S (length (messageHandlers st)))
      as (st1 & Hs & Hq1 & Hl1).
    { destruct ev as [msg|id|cond n t|cond t]; simpl in *.
      - unfold dispatch.
        destruct (forEach_quiet fuel msg 0 st) as (log & st1 & -> & ? & ?);
          [done|done|lia|]. exists st1. simpl. split; [done|]. split; [done|lia].
      - destruct (on_timeout_quiet id st Hq) as [? ?].
        eexists. split; [done|]. split; [done|lia].
      - eexists. split; [done|].
        split; [by apply quiet_register|apply register_handlers_length].
      - eexists. split; [done|].
        split; [by apply quiet_register|apply register_handlers_length]. }
    rewrite Hs. apply IH; [|done|done|lia].
    eapply wf_step; [done|by rewrite Hs].
Qed.


Lemma registered_after_timeout id st : wf st → ¬ registered id (on_timeout id st) ∨
  ∃ c, calls st !! id = Some c ∧ timer c ≠ Armed ∧ on_timeout id st = st.
Proof.
  intros Hwf. destruct (calls st !! id) as [c|] eqn:Hc.
  - rewrite (on_timeout_shape _ _ _ Hc). destruct (timer c) eqn:Ht.
    + left. unfold place, registered.
      assert (is_pending (promise (expire c)) = false) as ->.
      { unfold expire. simpl. by destruct (promise c), (mode c). }
      simpl. rewrite elem_of_Set_delete. tauto.
    + right. exists c. by rewrite Ht.
    + right. exists c. by rewrite Ht.
  - left. unfold on_timeout. rewrite Hc. intros Hr%(wf_bound _ _ Hwf).
    apply lookup_ge_None in Hc. lia.
Qed.

Lemma snapshot_NoDup st : wf st → NoDup (snapshot st).
Proof.
  intros Hwf. pose proof (wf_unique _ Hwf) as Hu. unfold snapshot.
  induction (messageHandlers st) as [|e s IH]; [constructor|].
  assert (NoDup (omap id s)) as Hs.
  { apply IH. intros i j h Hi Hj. apply (Hu (S i) (S j) h Hi) in Hj. lia. }
  destruct e as [h|]; csimpl; [|done].
  constructor; [|done]. intros (x & Hx & Hid)%list_elem_of_omap.
  simpl in Hid. subst x. apply list_elem_of_lookup in Hx as [j Hj].
  by pose proof (Hu 0 (S j) h eq_refl Hj).
Qed.

(** * The claims *)

(** C1. A [waitFor(P, N, T)] with [N >= 1] during which at least [N]
    messages satisfying [P] are dispatched before its timer fires resolves
    with exactly the first [N] matching messages, in receipt order, and
    never more; and such a run does return when every predicate in play is
    well-behaved. *)
Theorem waitFor_resolves_with_first_matches
    st (cond : @Condition Message) (P : Message → bool) (N : Z) (T : number) evs :
  reachable st → decides cond P → (1 ≤ N)%Z →
  TimerDue (waitFor cond (Integer N) T st).1 ∉ evs →
  (N ≤ Z.of_nat (length (filter P (inbound evs))))%Z →
  (∀ fuel st', run fuel evs (waitFor cond (Integer N) T st).2 = Ok st' →
     promise_of (waitFor cond (Integer N) T st).1 st' =
     Some (Fulfilled (Messages (take (Z.to_nat N) (filter P (inbound evs))))) ∧
     length (take (Z.to_nat N) (filter P (inbound evs))) = Z.to_nat N) ∧
  (quiet_client st → quiet cond → Forall quiet_event evs →
   ∀ fuel, S (length (messageHandlers st)) + length evs ≤ fuel →
     ∃ st', run fuel evs (waitFor cond (Integer N) T st).2 = Ok st').
Proof.
  intros Hreach Hd HN Hno Hlen. apply reachable_wf in Hreach as Hwf.
  unfold waitFor in *.
  pose proof (wf_register (COLLECT (Integer N)) cond T st Hwf) as Hwf0.
  pose proof (register_call (COLLECT (Integer N)) cond T st) as Hc0.
  split.
  - intros fuel st' Hrun.
    pose proof (run_call _ _ _ _ _ _ Hwf0 Hc0 Hrun) as Hc'.
    destruct (collect_fold _ P (Integer N) evs (mkCall (COLLECT (Integer N)) cond T [] Armed Pending)
                Hd eq_refl eq_refl eq_refl Hno)
      as [HA _].
    simpl in HA. destruct (HA N eq_refl) as (_ & Hp & _); [lia|].
    split; [unfold promise_of; by rewrite Hc', <- Hp|].
    rewrite length_take. lia.
  - intros Hq Hqc Hevs fuel Hfuel. apply run_quiet; [done| |done|].
    + by apply quiet_register.
    + pose proof (register_handlers_length (COLLECT (Integer N)) cond T st). lia.
Qed.

(** C2. For every call of [waitFor] or [waitForSilence] in a reachable
    client: while the promise is pending both the handler and the timer are
    live; once it is settled the handler is out of the set, the timer is no
    longer pending, and no event changes the call any more; a promise
    settled by a match has a cleared timer (its callback never ran) and one
    settled by the timer has a timer that ran, so the two settlements
    exclude each other. *)
Theorem settles_at_most_once st id c :
  reachable st → calls st !! id = Some c →
  (promise c = Pending → registered id st ∧ timer c = Armed) ∧
  (promise c ≠ Pending →
     ¬ registered id st ∧ timer c ≠ Armed ∧
     ∀ fuel ev st', final (step fuel ev st) = Some st' →
       calls st' !! id = Some c) ∧
  (settled_by_match c ↔ timer c = Cleared) ∧
  (settled_by_timer c ↔ timer c = Fired) ∧
  ¬ (settled_by_match c ∧ settled_by_timer c).
Proof.
  intros Hwf%reachable_wf Hc.
  destruct (wf_call _ Hwf _ _ Hc) as [Hok Hreg].
  split; [|split; [|split; [|split]]].
  - intros Hp. split; [by apply Hreg|].
    unfold call_ok in Hok. by rewrite Hp in Hok.
  - intros Hp. split; [|split].
    + by intros Hr%(registered_pending _ _ _ Hwf Hc).
    + intros Ht. by apply Hp, call_ok_armed.
    + intros fuel ev st'. by apply step_settled.
  - unfold settled_by_match, call_ok in *.
    destruct (mode c), (promise c); split; intros H; try done;
      try congruence; destruct Hok as [Hok _]; congruence.
  - unfold settled_by_timer, call_ok in *.
    destruct (mode c), (promise c); split; intros H; try done;
      try congruence; destruct Hok as [Hok _]; congruence.
  - unfold settled_by_match, settled_by_timer.
    destruct (mode c), (promise c); tauto.
Qed.

(** C3. A [waitForSilence(P, W)] succeeds if and only if no message
    satisfying [P] is dispatched before its timer fires: with no match it is
    still pending and registered when the window ends and the timer then
    resolves it; with a match it is already rejected and deregistered when
    the dispatch of the first match returns, before the timer, and stays
    rejected when the timer comes due. *)
Theorem waitForSilence_succeeds_iff_silent
    st (cond : @Condition Message) (P : Message → bool) (W : number) evs :
  reachable st → decides cond P →
  TimerDue (waitForSilence cond W st).1 ∉ evs →
  (∀ fuel st', run fuel evs (waitForSilence cond W st).2 = Ok st' →
     let id := (waitForSilence cond W st).1 in
     (filter P (inbound evs) = [] →
        promise_of id st' = Some Pending ∧ registered id st' ∧
        promise_of id (on_timeout id st') = Some (Fulfilled Undefined) ∧
        ¬ registered id (on_timeout id st')) ∧
     (filter P (inbound evs) ≠ [] →
        promise_of id st' = Some (Rejected silence_error) ∧
        ¬ registered id st' ∧
        on_timeout id st' = st') ∧
     (promise_of id (on_timeout id st') = Some (Fulfilled Undefined) ↔
      filter P (inbound evs) = [])) ∧
  (quiet_client st → quiet cond → Forall quiet_event evs →
   ∀ fuel, S (length (messageHandlers st)) + length evs ≤ fuel →
     ∃ st', run fuel evs (waitForSilence cond W st).2 = Ok st').
Proof.
  intros Hreach Hd Hno. apply reachable_wf in Hreach as Hwf.
  unfold waitForSilence in *.
  pose proof (wf_register SILENCE cond W st Hwf) as Hwf0.
  pose proof (register_call SILENCE cond W st) as Hc0.
  split.
  - intros fuel st' Hrun. set (id := (register SILENCE cond W st).1) in *.
    pose proof (run_call _ _ _ _ _ _ Hwf0 Hc0 Hrun) as Hc'.
    pose proof (wf_run _ _ _ _ Hwf0 Hrun) as Hwf'.
    destruct (silence_fold _ P evs (mkCall SILENCE cond W [] Armed Pending)
                Hd eq_refl eq_refl eq_refl Hno)
      as [HA HB]. simpl in HA, HB.
    assert (filter P (inbound evs) = [] →
            promise_of id st' = Some Pending ∧ registered id st' ∧
            promise_of id (on_timeout id st') = Some (Fulfilled Undefined) ∧
            ¬ registered id (on_timeout id st')) as Hsilent.
    { intros Hnil. rewrite (HA Hnil) in Hc'.
      split; [unfold promise_of; by rewrite Hc'|].
      split; [by apply (registered_pending _ _ _ Hwf' Hc')|].
      split; [unfold promise_of; by rewrite (on_timeout_self _ _ _ Hc')|].
      destruct (registered_after_timeout id st' Hwf')
        as [Hn|(c & Hc & Ht & _)]; [done|].
      rewrite Hc' in Hc. by injection Hc as <-. }
    assert (filter P (inbound evs) ≠ [] →
            promise_of id st' = Some (Rejected silence_error) ∧
            ¬ registered id st' ∧ on_timeout id st' = st') as Hnoisy.
    { intros Hne. destruct (HB Hne) as [Hp Ht].
      split; [unfold promise_of; by rewrite Hc', <- Hp|].
      split.
      - intros Hr%(registered_pending _ _ _ Hwf' Hc'). by rewrite Hr in Hp.
      - rewrite (on_timeout_shape _ _ _ Hc'). by rewrite Ht. }
    split; [done|]. split; [done|]. split.
    + intros Hok. destruct (filter P (inbound evs)) eqn:Hf; [done|].
      destruct Hnoisy as (Hp & _ & Hsame); [done|].
      rewrite Hsame, Hp in Hok. done.
    + intros Hnil. by apply Hsilent.
  - intros Hq Hqc Hevs fuel Hfuel. apply run_quiet; [done| |done|].
    + by apply quiet_register.
    + pose proof (register_handlers_length SILENCE cond W st). lia.
Qed.

(** C4. When the timer of a [waitFor(P, N, T)] fires while fewer than [N]
    matches have accumulated, the call rejects with the error
    "Timeout: Only received k/N messages", [k] being the number of matches
    received so far; for 2 matches out of 3 the text reads
    "Timeout: Only received 2/3 messages". *)
Theorem waitFor_timeout_reports_partial_count
    st (cond : @Condition Message) (P : Message → bool) (N : Z) (T : number) evs fuel st' :
  reachable st → decides cond P →
  TimerDue (waitFor cond (Integer N) T st).1 ∉ evs →
  run fuel evs (waitFor cond (Integer N) T st).2 = Ok st' →
  (Z.of_nat (length (filter P (inbound evs))) < N)%Z →
  let id := (waitFor cond (Integer N) T st).1 in
  promise_of id st' = Some Pending ∧
  step fuel (TimerDue id) st' = Ok (on_timeout id st') ∧
  promise_of id (on_timeout id st') =
    Some (Rejected (timeout_error (length (filter P (inbound evs))) (Integer N))) ∧
  ¬ registered id (on_timeout id st') ∧
  message (timeout_error 2 (Integer 3)) = "Timeout: Only received 2/3 messages"%string.
Proof.
  intros Hreach Hd Hno Hrun Hlt id. apply reachable_wf in Hreach as Hwf.
  subst id. unfold waitFor in *.
  pose proof (wf_register (COLLECT (Integer N)) cond T st Hwf) as Hwf0.
  pose proof (register_call (COLLECT (Integer N)) cond T st) as Hc0.
  pose proof (run_call _ _ _ _ _ _ Hwf0 Hc0 Hrun) as Hc'.
  pose proof (wf_run _ _ _ _ Hwf0 Hrun) as Hwf'.
  destruct (collect_fold _ P (Integer N) evs (mkCall (COLLECT (Integer N)) cond T [] Armed Pending)
                Hd eq_refl eq_refl eq_refl Hno)
    as [_ HB].
  simpl in HB, Hc'. destruct HB as (Hr & Hp & Ht); [intros n Hn [=]; lia|]. simpl.
  split; [unfold promise_of; rewrite Hc'; simpl; by rewrite Hp|].
  split; [done|]. split; [|split; [|done]].
  - unfold promise_of. rewrite (on_timeout_self _ _ _ Hc'), Ht.
    unfold expire. simpl. rewrite Hp, Hr. simpl.
    by rewrite foldl_call_step_mode.
  - destruct (registered_after_timeout (length (calls st)) st' Hwf')
      as [Hn|(c & Hc & Ht' & _)]; [done|].
    rewrite Hc' in Hc. injection Hc as <-. by rewrite Ht in Ht'.
Qed.


(** C5 (as the code has it).  The ['message'] listener walks the live
    handler set, not a copy: a dispatch that returns has called, once each
    and in insertion order, every handler that was in the set when it
    started, and after them every handler registered while the message was
    being delivered.  The handlers present at the start each ran exactly
    once on their own closures, so registration from inside a predicate does
    not disturb the walk; and with well-behaved predicates the dispatch
    returns. *)
Theorem dispatch_walks_the_live_set st msg :
  reachable st →
  (∀ fuel log st', dispatch fuel msg st = (log, Ok st') →
     log = snapshot st ++ news st st' ∧ NoDup log ∧
     (∀ w c, registered w st → calls st !! w = Some c →
        calls st' !! w = Some (receive msg c)) ∧
     reachable st') ∧
  (quiet_client st → ∀ fuel, length (messageHandlers st) ≤ fuel →
     ∃ log st', dispatch fuel msg st = (log, Ok st')).
Proof.
  intros Hreach. apply reachable_wf in Hreach as Hwf. split.
  - intros fuel log st' Hd.
    assert (reachable st') as Hreach'.
    { eapply (reach_step fuel (Inbound msg)); [done|]. simpl. by rewrite Hd. }
    unfold dispatch in Hd. apply forEach_walks in Hd as Hw.
    destruct (walks_log _ _ _ _ _ Hw Hwf st' eq_refl) as [Hlen Hlog].
    rewrite drop_0 in Hlog. split; [done|]. split; [|split; [|done]].
    + rewrite Hlog. apply NoDup_app. split; [by apply snapshot_NoDup|]. split.
      * intros h (x & Hx & Hid)%list_elem_of_omap Hn. simpl in Hid. subst x.
        apply (wf_bound _ _ Hwf) in Hx. apply elem_of_seq in Hn. lia.
      * apply NoDup_seq.
    + intros w c Hr Hc.
      destruct (walks_call _ _ _ _ _ Hw Hwf w c Hc) as [_ H2].
      apply H2; [by rewrite drop_0|done].
  - intros Hq fuel Hfuel.
    destruct (forEach_quiet fuel msg 0 st) as (log & st' & Hf & _);
      [done|done|lia|]. by exists log, st'.
Qed.

(** C6 (as the code has it).  Nothing catches an exception thrown by a
    predicate.  If the predicate of any registered waiter throws on the
    message, the listener does not return normally.  When the listener
    throws, the exception is the one raised by the predicate of the last
    handler called; that waiter is still registered and pending, every call
    whose handler was not reached is exactly as before (it has not been
    given the message), and the client is left in a reachable state. *)
Theorem predicate_exception_escapes st fuel msg log r :
  reachable st → dispatch fuel msg st = (log, r) →
  (∀ h c e, registered h st → calls st !! h = Some c →
     verdict (condition c msg) = Abrupt e → ∀ st', r ≠ Ok st') ∧
  (∀ e st', r = Uncaught e st' →
     (∃ h c, last log = Some h ∧ registered h st' ∧
             calls st' !! h = Some c ∧ promise c = Pending ∧
             verdict (condition c msg) = Abrupt e) ∧
     (∀ w c, w ∉ log → calls st !! w = Some c → calls st' !! w = Some c) ∧
     reachable st').
Proof.
  intros Hreach Hd. apply reachable_wf in Hreach as Hwf.
  assert (walks msg 0 st log r) as Hw by (by apply forEach_walks in Hd).
  split.
  - intros h c e Hr Hc Hv st' ->.
    destruct (walks_verdicts _ _ _ _ _ Hw Hwf st' h c eq_refl) as [b Hb];
      [by rewrite drop_0|done|congruence].
  - intros e st' ->. split; [|split].
    + by eapply walks_thrower.
    + intros w c Hn Hc. by eapply walks_frame.
    + eapply (reach_step fuel (Inbound msg)); [done|]. simpl. by rewrite Hd.
Qed.

(** C7 (as the code has it).  A [waitForSilence] that fails because a
    matching message arrived rejects with the fixed error
    "Message received during silence window", whatever the message was. *)
Theorem silence_rejection_is_fixed_error st id c e :
  reachable st → calls st !! id = Some c → mode c = SILENCE →
  promise c = Rejected e →
  e = silence_error ∧
  message e = "Message received during silence window"%string ∧
  settled_by_match c.
Proof.
  intros Hwf%reachable_wf Hc Hm Hp.
  destruct (wf_call _ Hwf _ _ Hc) as [Hok _].
  unfold call_ok, settled_by_match in *. rewrite Hp, Hm in *.
  destruct Hok as [_ ->]. done.
Qed.

(** C8. [cleanup] is idempotent: running it a second time (the timer path
    after the match path, or the reverse) leaves the handler set, the timer
    and everything else in the client exactly as the first run left them. *)
Theorem cleanup_idempotent (id : nat) (st : @Client Message) :
  cleanup id (cleanup id st) = cleanup id st.
Proof.
  unfold cleanup, clearTimeout, update_call. simpl. f_equal.
  - apply Set_delete_idemp.
  - rewrite list_alter_alter_eq. apply list_alter_ext; [|done].
    intros c _. unfold compose. by destruct (timer c) eqn:Ht; simpl; rewrite ?Ht.
Qed.

(** C9. A [waitFor] whose [count] no positive number of matches can equal
    (0 or a negative count) never resolves, however many matching messages
    arrive: it stays pending and registered, keeps every match, and is
    rejected by its timer, reporting the matches received out of [count]. *)
Theorem waitFor_unattainable_count_never_resolves
    st (cond : @Condition Message) (P : Message → bool) (count T : number) evs fuel st' :
  reachable st → decides cond P →
  (∀ n : nat, 0 < n → Integer (Z.of_nat n) ≠ count) →
  TimerDue (waitFor cond count T st).1 ∉ evs →
  run fuel evs (waitFor cond count T st).2 = Ok st' →
  let id := (waitFor cond count T st).1 in
  promise_of id st' = Some Pending ∧ registered id st' ∧
  results_of id st' = filter P (inbound evs) ∧
  promise_of id (on_timeout id st') =
    Some (Rejected (timeout_error (length (filter P (inbound evs))) count)).
Proof.
  intros Hreach Hd HN Hno Hrun id. apply reachable_wf in Hreach as Hwf.
  subst id. unfold waitFor in *.
  pose proof (wf_register (COLLECT count) cond T st Hwf) as Hwf0.
  pose proof (register_call (COLLECT count) cond T st) as Hc0.
  pose proof (run_call _ _ _ _ _ _ Hwf0 Hc0 Hrun) as Hc'.
  pose proof (wf_run _ _ _ _ Hwf0 Hrun) as Hwf'.
  destruct (collect_fold _ P count evs (mkCall (COLLECT count) cond T [] Armed Pending)
              Hd eq_refl eq_refl eq_refl Hno) as [_ HB].
  simpl in HB, Hc'. destruct HB as (Hr & Hp & Ht).
  { intros n Hn. apply HN. lia. }
  simpl.
  split; [unfold promise_of; rewrite Hc'; simpl; by rewrite Hp|].
  split; [by apply (registered_pending _ _ _ Hwf' Hc')|].
  split; [unfold results_of; by rewrite Hc'|].
  unfold promise_of. rewrite (on_timeout_self _ _ _ Hc'), Ht.
  unfold expire. simpl. rewrite Hp, Hr. simpl.
  by rewrite foldl_call_step_mode.
Qed.


(** ** The older [waitFor] against [waitFor(P, 1, T)] *)

Lemma run_ticks_quiet fuel id (trace : list (@Tick Message)) st :
  wf st → quiet_client st → length (messageHandlers st) ≤ fuel →
  ∃ st', run fuel (events id trace) st = Ok st'.
Proof.
  revert st. induction trace as [|t trace IH]; intros st Hwf Hq Hlen; simpl.
  - by exists st.
  - destruct t as [msg|]; simpl.
    + unfold dispatch.
      destruct (forEach_quiet fuel msg 0 st) as (log & st1 & Hf & Hq1 & Hl1);
        [done|done|lia|].
      rewrite Hf. simpl. apply IH; [|done|lia].
      apply forEach_walks in Hf. by eapply walks_wf.
    + destruct (on_timeout_quiet id st Hq) as [Hq1 Hl1].
      apply IH; [by apply wf_on_timeout|done|lia].
Qed.

Lemma single_fold (P : Message → bool) (T : number) (trace : list (@Tick Message)) :
  promise (foldl (λ c ev, call_step 0 ev c)
             (mkCall (COLLECT (Integer 1)) (pure P) T [] Armed Pending) (events 0 trace)) =
  match first_settling P trace with
  | None => Pending
  | Some (Frame msg) => Fulfilled (Messages [msg])
  | Some Elapsed => Rejected (timeout_error 0 (Integer 1))
  end.
Proof.
  induction trace as [|t trace IH]; [done|].
  destruct t as [msg|]; simpl.
  - unfold receive. simpl. destruct (P msg) eqn:HP; simpl; [|done].
    by rewrite settled_fold.
  - by rewrite settled_fold.
Qed.

Lemma legacy_settled_stays (P : Message → bool) (T : number) (trace : list (@Tick Message)) :
  ∀ ls t p, t ≠ Armed → p ≠ Legacy.Pending → ls = [0] ∨ ls = [] →
    Legacy.promise_of 0
      (Legacy.run (legacy_events 0 trace)
         (Legacy.mkClient ls [Legacy.mkCall P T t p])) = Some p.
Proof.
  induction trace as [|tk trace IH]; intros ls t p Ht Hp Hls; [done|].
  destruct tk as [msg|]; simpl.
  - destruct Hls as [-> | ->]; [|by apply IH; auto].
    unfold Legacy.emit, Legacy.listener. simpl. destruct (P msg).
    + replace (Legacy.resolve _ _ _)
        with (Legacy.mkClient [] [Legacy.mkCall P T t p]); [by apply IH; auto|].
      by destruct t, p.
    + by apply IH; auto.
  - replace (Legacy.on_timeout _ _) with (Legacy.mkClient ls [Legacy.mkCall P T t p]);
      [by apply IH|].
    unfold Legacy.on_timeout. simpl. by destruct t.
Qed.

Lemma legacy_single (P : Message → bool) (T : number) (trace : list (@Tick Message)) :
  Legacy.promise_of 0
    (Legacy.run (legacy_events 0 trace)
       (Legacy.waitFor P T Legacy.new_client).2) =
  Some match first_settling P trace with
       | None => Legacy.Pending
       | Some (Frame msg) => Legacy.Fulfilled msg
       | Some Elapsed => Legacy.Rejected (Legacy.timeout_error T)
       end.
Proof.
  unfold Legacy.waitFor, Legacy.new_client. simpl.
  induction trace as [|tk trace IH]; [done|].
  destruct tk as [msg|]; simpl.
  - unfold Legacy.emit, Legacy.listener. simpl. destruct (P msg); [|done].
    by apply legacy_settled_stays; auto.
  - by apply legacy_settled_stays; auto.
Qed.

(** C10. On any sequence of frames and timeout for one outstanding call,
    the older [waitFor(P, T)] and the newer [waitFor(P, 1, T)] settle
    alike: both stay pending until the first matching frame or the
    timeout, whichever comes first; on the frame the older one resolves
    with the message and the newer one with the one-element list holding
    it; on the timeout both reject; and nothing later changes either
    outcome. *)
Theorem legacy_waitFor_agrees_with_count_one
    (P : Message → bool) (T : number) (trace : list (@Tick Message)) (fuel : nat) :
  ∃ st' old new,
    run (S fuel) (events 0 trace) (waitFor (pure P) (Integer 1) T new_client).2 = Ok st' ∧
    promise_of 0 st' = Some new ∧
    Legacy.promise_of 0
      (Legacy.run (legacy_events 0 trace)
         (Legacy.waitFor P T Legacy.new_client).2) = Some old ∧
    same_outcome old new ∧
    old = match first_settling P trace with
          | None => Legacy.Pending
          | Some (Frame msg) => Legacy.Fulfilled msg
          | Some Elapsed => Legacy.Rejected (Legacy.timeout_error T)
          end ∧
    new = match first_settling P trace with
          | None => Pending
          | Some (Frame msg) => Fulfilled (Messages [msg])
          | Some Elapsed => Rejected (timeout_error 0 (Integer 1))
          end.
Proof.
  pose proof (wf_register (COLLECT (Integer 1)) (pure P) T new_client wf_new) as Hwf0.
  destruct (run_ticks_quiet (S fuel) 0 trace
              (waitFor (pure P) (Integer 1) T new_client).2) as [st' Hrun].
  - done.
  - apply quiet_register; [|intros msg; by eexists].
    intros id c Hc. unfold new_client in Hc. simpl in Hc.
    by rewrite lookup_nil in Hc.
  - simpl. lia.
  - pose proof (run_call _ _ _ _ 0 _ Hwf0
                  (register_call (COLLECT (Integer 1)) (pure P) T new_client) Hrun) as Hc'.
    eexists st', _, _. split; [done|].
    split; [unfold promise_of; rewrite Hc'; simpl; apply f_equal, single_fold|].
    split; [apply legacy_single|].
    split; [|done].
    destruct (first_settling P trace) as [[msg|]|]; constructor.
Qed.


Lemma run_reachable fuel (evs : list (@Event Message)) st st' :
  reachable st → run fuel evs st = Ok st' → reachable st'.
Proof.
  revert st. induction evs as [|ev evs IH]; intros st Hr; simpl.
  - by intros [= <-].
  - destruct (step fuel ev st) as [st1| |] eqn:Hs; [|done|done].
    apply IH. eapply reach_step; [done|by rewrite Hs].
Qed.

Lemma register_reachable m (cond : @Condition Message) t st :
  reachable st → reachable (register m cond t st).2.
Proof.
  intros Hr. destruct m as [n|].
  - by apply (reach_step 0 (CallWaitFor cond n t) st).
  - by apply (reach_step 0 (CallWaitForSilence cond t) st).
Qed.

End Proofs.

(** * The claims on concrete runs *)

Ltac not_in_feed :=
  let H := fresh in
  intros H; repeat (apply elem_of_cons in H as [H|H]; [discriminate H|]);
  by apply elem_of_nil in H.

(** C1 on a feed of three ticker updates and a heartbeat: [waitFor(ticker, 2)]
    resolves with the first two updates. *)
Lemma waitFor_resolves_with_first_matches_witness :
  (reachable (@new_client string) ∧ decides ticker is_ticker ∧ (1 ≤ 2)%Z ∧
   (TimerDue (waitFor ticker (Integer 2) (Integer 8000) new_client).1 ∉ ticker_feed) ∧
   (2 ≤ Z.of_nat (length (filter is_ticker (inbound ticker_feed))))%Z) ∧
  ∃ st', run 1 ticker_feed (waitFor ticker (Integer 2) (Integer 8000) new_client).2 = Ok st' ∧
         promise_of 0 st' = Some (Fulfilled (Messages ["ticker"; "ticker"]%string)).
Proof.
  assert (reachable (@new_client string) ∧ decides ticker is_ticker ∧ (1 ≤ 2)%Z ∧
          (TimerDue (waitFor ticker (Integer 2) (Integer 8000) new_client).1 ∉ ticker_feed) ∧
          (2 ≤ Z.of_nat (length (filter is_ticker (inbound ticker_feed))))%Z)
    as Hyp.
  { split; [apply reach_new|]. split; [by intros msg|]. split; [lia|].
    split; [not_in_feed|]. vm_compute. discriminate. }
  split; [exact Hyp|].
  destruct Hyp as (H1 & H2 & H3 & H4 & H5).
  destruct (waitFor_resolves_with_first_matches
              new_client ticker is_ticker 2 (Integer 8000) ticker_feed H1 H2 H3 H4 H5)
    as [Hres _].
  exists (after 1 ticker_feed (waitFor ticker (Integer 2) (Integer 8000) new_client).2).
  split; [reflexivity|].
  destruct (Hres 1 (after 1 ticker_feed (waitFor ticker (Integer 2) (Integer 8000) new_client).2)
              eq_refl) as [Hp _].
  exact Hp.
Defined.

(** C2 on a call resolved by a match: its handler is gone, its timer is
    cleared, and the timer coming due changes nothing. *)
Lemma settles_at_most_once_witness :
  (reachable resolved_client ∧ calls resolved_client !! 0 = Some resolved_call) ∧
  ¬ registered 0 resolved_client ∧ timer resolved_call ≠ Armed ∧
  calls (on_timeout 0 resolved_client) !! 0 = Some resolved_call ∧
  settled_by_match resolved_call ∧ ¬ settled_by_timer resolved_call.
Proof.
  assert (reachable resolved_client) as Hreach.
  { apply (run_reachable 1 [Inbound "ticker"%string]
             (waitFor ticker (Integer 1) (Integer 8000) new_client).2);
      [apply register_reachable, reach_new|reflexivity]. }
  assert (calls resolved_client !! 0 = Some resolved_call) as Hc by reflexivity.
  split; [by split|].
  destruct (settles_at_most_once resolved_client 0 resolved_call Hreach Hc)
    as (_ & Hsettled & Hmatch & _ & Hexcl).
  destruct Hsettled as (Hunreg & Harmed & Hfrozen); [discriminate|].
  split; [exact Hunreg|]. split; [exact Harmed|].
  split; [exact (Hfrozen 0 (TimerDue 0) _ eq_refl)|].
  assert (settled_by_match resolved_call) as Hm by (apply Hmatch; reflexivity).
  split; [exact Hm|]. intros Ht. apply Hexcl. by split.
Defined.

(** C3 on an idle feed: the silence wait is still pending when the feed
    ends, and its timer then resolves it. *)
Lemma waitForSilence_succeeds_iff_silent_witness :
  (reachable (@new_client string) ∧ decides ticker is_ticker ∧
   TimerDue (waitForSilence ticker (Integer 5000) new_client).1 ∉ idle_feed) ∧
  ∃ st', run 1 idle_feed (waitForSilence ticker (Integer 5000) new_client).2 = Ok st' ∧
         promise_of 0 st' = Some Pending ∧
         promise_of 0 (on_timeout 0 st') = Some (Fulfilled Undefined).
Proof.
  assert (reachable (@new_client string)) as H1 by apply reach_new.
  assert (decides ticker is_ticker) as H2 by (by intros msg).
  assert (TimerDue (waitForSilence ticker (Integer 5000) new_client).1 ∉ idle_feed)
    as H3 by not_in_feed.
  split; [by repeat split|].
  destruct (waitForSilence_succeeds_iff_silent
              new_client ticker is_ticker (Integer 5000) idle_feed H1 H2 H3) as [Hres _].
  exists (after 1 idle_feed (waitForSilence ticker (Integer 5000) new_client).2).
  split; [reflexivity|].
  destruct (Hres 1 _ eq_refl) as [Hsilent _].
  destruct (Hsilent eq_refl) as (Hp & _ & Hok & _). by split.
Defined.

(** C4 on two ticker updates out of three wanted. *)
Lemma waitFor_timeout_reports_partial_count_witness :
  (reachable (@new_client string) ∧ decides ticker is_ticker ∧
   (TimerDue (waitFor ticker (Integer 3) (Integer 8000) new_client).1 ∉ short_feed) ∧
   run 1 short_feed (waitFor ticker (Integer 3) (Integer 8000) new_client).2
   = Ok (after 1 short_feed (waitFor ticker (Integer 3) (Integer 8000) new_client).2) ∧
   (Z.of_nat (length (filter is_ticker (inbound short_feed))) < 3)%Z) ∧
  promise_of 0
    (on_timeout 0 (after 1 short_feed (waitFor ticker (Integer 3) (Integer 8000) new_client).2)) =
  Some (Rejected (mkError "Timeout: Only received 2/3 messages")).
Proof.
  assert (reachable (@new_client string)) as H1 by apply reach_new.
  assert (decides ticker is_ticker) as H2 by (by intros msg).
  assert (TimerDue (waitFor ticker (Integer 3) (Integer 8000) new_client).1 ∉ short_feed)
    as H3 by not_in_feed.
  assert (run 1 short_feed (waitFor ticker (Integer 3) (Integer 8000) new_client).2
          = Ok (after 1 short_feed (waitFor ticker (Integer 3) (Integer 8000) new_client).2))
    as H4 by reflexivity.
  assert (Z.of_nat (length (filter is_ticker (inbound short_feed))) < 3)%Z
    as H5 by (vm_compute; reflexivity).
  split; [by repeat split|].
  destruct (waitFor_timeout_reports_partial_count
              new_client ticker is_ticker 3 (Integer 8000) short_feed 1 _
              H1 H2 H3 H4 H5)
    as (_ & _ & Hrej & _).
  exact Hrej.
Defined.

(** C5 (as the code has it) on the client whose predicate registers a
    second waiter: the dispatch calls handler 0, then the new handler 1. *)
Lemma dispatch_walks_the_live_set_witness :
  reachable reentrant_client ∧
  ∃ st', dispatch 2 "status"%string reentrant_client = ([0; 1], Ok st') ∧
         [0; 1] = snapshot reentrant_client ++ news reentrant_client st' ∧
         NoDup [0; 1].
Proof.
  assert (reachable reentrant_client) as H1
    by apply register_reachable, reach_new.
  split; [exact H1|].
  destruct (dispatch_walks_the_live_set reentrant_client "status"%string H1)
    as [Hlog _].
  eexists. split; [reflexivity|].
  destruct (Hlog 2 [0; 1] _ eq_refl) as (Hl & Hnd & _). by split.
Defined.

(** C5, refuted as stated: the predicate of the only registered waiter
    starts a second wait while the frame is being delivered; the same
    dispatch goes on to call the new handler, which resolves with that very
    frame, although a copy of the set taken at the start holds the first
    handler only. *)
Lemma dispatch_reaches_waiter_registered_during_delivery :
  snapshot reentrant_client = [0] ∧
  (∃ st', dispatch 2 "status"%string reentrant_client = ([0; 1], Ok st') ∧
          promise_of 1 st' = Some (Fulfilled (Messages ["status"%string]))) ∧
  ¬ walks_a_snapshot.
Proof.
  split; [reflexivity|]. split.
  - eexists. split; reflexivity.
  - intros H.
    assert (reachable reentrant_client) as Hr.
    { apply (reach_step 0 (CallWaitFor reentrant (Integer 1) (Integer 8000)) new_client);
        [apply reach_new|reflexivity]. }
    specialize (H reentrant_client 2 "status"%string [0; 1] _ Hr eq_refl).
    discriminate H.
Qed.

(** C6 (as the code has it) on the client whose first predicate throws. *)
Lemma predicate_exception_escapes_witness :
  reachable throwing_client ∧
  ∃ st', dispatch 2 "status"%string throwing_client
         = ([0], Uncaught (mkError "boom") st') ∧
         registered 0 st' ∧ promise_of 0 st' = Some Pending ∧
         calls st' !! 1 = calls throwing_client !! 1.
Proof.
  assert (reachable throwing_client) as H1
    by apply register_reachable, register_reachable, reach_new.
  split; [exact H1|].
  eexists. split; [reflexivity|].
  destruct (predicate_exception_escapes throwing_client 2 "status"%string
              [0] _ H1 eq_refl) as [_ Hthrow].
  destruct (Hthrow _ _ eq_refl) as ((h & c & Hlast & Hreg & Hc & Hp & _) & Hframe & _).
  injection Hlast as <-.
  split; [exact Hreg|].
  split; [unfold promise_of; rewrite Hc; simpl; by rewrite Hp|].
  apply Hframe; [|reflexivity].
  intros Hin. apply list_elem_of_singleton in Hin. discriminate Hin.
Defined.

(** C6, refuted as stated: the first waiter's predicate throws on the
    frame; the exception leaves the listener, and the second waiter, though
    registered and waiting for any message, is not given the frame. *)
Lemma predicate_exception_stops_delivery :
  registered 1 throwing_client ∧
  verdict (any_message "status"%string) = Normal true ∧
  (∃ st', dispatch 2 "status"%string throwing_client
          = ([0], Uncaught (mkError "boom") st') ∧
          promise_of 1 st' = Some Pending ∧ results_of 1 st' = []) ∧
  ¬ exceptions_contained.
Proof.
  split; [|split; [reflexivity|split]].
  - unfold registered. apply list_elem_of_lookup. by exists 1.
  - eexists. split; [reflexivity|]. split; reflexivity.
  - intros H.
    assert (reachable throwing_client) as Hr.
    { apply (reach_step 0 (CallWaitFor any_message (Integer 1) (Integer 8000))
               (waitFor throwing (Integer 1) (Integer 8000) new_client).2); [|reflexivity].
      apply (reach_step 0 (CallWaitFor throwing (Integer 1) (Integer 8000)) new_client);
        [apply reach_new|reflexivity]. }
    by apply (H throwing_client 2 "status"%string [0] (mkError "boom")
                throwing_client Hr).
Qed.

(** C7 (as the code has it) on a silence wait failed by a status frame. *)
Lemma silence_rejection_is_fixed_error_witness :
  (reachable disturbed_client ∧ calls disturbed_client !! 0 = Some disturbed_call ∧
   mode disturbed_call = SILENCE ∧
   promise disturbed_call = Rejected silence_error) ∧
  message silence_error = "Message received during silence window"%string.
Proof.
  assert (reachable disturbed_client) as H1.
  { apply (run_reachable 1 [Inbound "status"%string] silence_client);
      [apply register_reachable, reach_new|reflexivity]. }
  assert (calls disturbed_client !! 0 = Some disturbed_call) as H2 by reflexivity.
  split; [by repeat split|].
  destruct (silence_rejection_is_fixed_error disturbed_client 0 disturbed_call
              silence_error H1 H2 eq_refl eq_refl) as (_ & Hmsg & _).
  exact Hmsg.
Defined.

(** C7, refuted as stated: a status frame and a ticker frame make the
    same [waitForSilence] fail with one and the same error, so the error
    does not tell which message arrived. *)
Lemma silence_error_does_not_carry_the_message :
  promise_of 0 (after 1 [Inbound "status"%string] silence_client)
  = Some (Rejected silence_error) ∧
  promise_of 0 (after 1 [Inbound "ticker"%string] silence_client)
  = Some (Rejected silence_error) ∧
  ¬ error_carries_message.
Proof.
  split; [reflexivity|]. split; [reflexivity|].
  intros [offending H].
  pose proof (H "status"%string _ silence_error eq_refl eq_refl) as H1.
  pose proof (H "ticker"%string _ silence_error eq_refl eq_refl) as H2.
  rewrite H1 in H2. discriminate H2.
Qed.

(** C9 on [waitFor(ticker, 0)] and three ticker updates. *)
Lemma waitFor_unattainable_count_never_resolves_witness :
  (reachable (@new_client string) ∧ decides ticker is_ticker ∧
   (∀ n : nat, 0 < n → Integer (Z.of_nat n) ≠ Integer 0) ∧
   (TimerDue (waitFor ticker (Integer 0) (Integer 8000) new_client).1 ∉ ticker_feed) ∧
   run 1 ticker_feed (waitFor ticker (Integer 0) (Integer 8000) new_client).2
   = Ok (after 1 ticker_feed (waitFor ticker (Integer 0) (Integer 8000) new_client).2)) ∧
  promise_of 0 (after 1 ticker_feed (waitFor ticker (Integer 0) (Integer 8000) new_client).2)
  = Some Pending ∧
  promise_of 0
    (on_timeout 0 (after 1 ticker_feed (waitFor ticker (Integer 0) (Integer 8000) new_client).2)) =
  Some (Rejected (mkError "Timeout: Only received 3/0 messages")).
Proof.
  assert (reachable (@new_client string)) as H1 by apply reach_new.
  assert (decides ticker is_ticker) as H2 by (by intros msg).
  assert (∀ n : nat, 0 < n → Integer (Z.of_nat n) ≠ Integer 0) as H3 by (intros n Hn [=]; lia).
  assert (TimerDue (waitFor ticker (Integer 0) (Integer 8000) new_client).1 ∉ ticker_feed)
    as H4 by not_in_feed.
  assert (run 1 ticker_feed (waitFor ticker (Integer 0) (Integer 8000) new_client).2
          = Ok (after 1 ticker_feed (waitFor ticker (Integer 0) (Integer 8000) new_client).2))
    as H5 by reflexivity.
  split; [by repeat split|].
  destruct (waitFor_unattainable_count_never_resolves
              new_client ticker is_ticker (Integer 0) (Integer 8000) ticker_feed 1 _
              H1 H2 H3 H4 H5)
    as (Hp & _ & _ & Hrej).
  split; [exact Hp|exact Hrej].
Defined.

(** A fractional count is never reached either: after three ticker updates
    [waitFor(ticker, 1.5)] is still pending, and its timer reports 3/1.5. *)
Example fractional_count_is_never_reached :
  promise_of 0
    (after 1 ticker_feed
       (waitFor ticker (NonInteger "1.5") (Integer 8000) new_client).2)
  = Some Pending ∧
  promise_of 0
    (on_timeout 0
       (after 1 ticker_feed
          (waitFor ticker (NonInteger "1.5") (Integer 8000) new_client).2))
  = Some (Rejected (mkError "Timeout: Only received 3/1.5 messages")).
Proof. split; reflexivity. Qed.

(** * Further properties of the client *)

Ltac on_walk H :=
  induction H as [i st Hi|i st e Hi|i st log r Hi Hw IH
                 |i st h st1 log r Hi Hh Hw IH|i st h e st1 Hi Hh|i st h Hi Hh].

(** ** Invariants of the closures of a call

    The closures of a call change in two ways only, by its own handler
    taking a message while the promise is pending and by its own timer
    running: a property of calls that holds of a new call and is kept by
    both holds throughout every reachable client, whatever the other waiters
    do. *)
Section CallInvariant.
Context {Message : Type}.
Implicit Types (st : @Client Message) (c : @Call Message) (msg : Message).
Variable Inv : @Call Message → Prop.
Hypothesis Inv_new : ∀ m cond t, Inv (mkCall m cond t [] Armed Pending).
Hypothesis Inv_receive : ∀ c msg,
  Inv c → call_ok c → promise c = Pending → Inv (receive msg c).
Hypothesis Inv_expire : ∀ c,
  Inv c → call_ok c → timer c = Armed → Inv (expire c).

Let all_calls (st : @Client Message) : Prop :=
  ∀ w c, calls st !! w = Some c → Inv c.

Lemma all_calls_register m (cond : @Condition Message) t st :
  all_calls st → all_calls (register m cond t st).2.
Proof.
  intros Hall w c. unfold register. simpl.
  intros [Hc|[_ Hc]]%lookup_app_Some; [by eapply Hall|].
  apply list_lookup_singleton_Some in Hc as [_ <-]. apply Inv_new.
Qed.

Lemma all_calls_exec (r : @Run Message) st :
  all_calls st → all_calls (exec r st).2.
Proof.
  revert st. induction r as [b|e|cond _ n t k IH|cond _ t k IH];
    intros st Hall; simpl; [done|done| |].
  - apply IH. by apply all_calls_register.
  - apply IH. by apply all_calls_register.
Qed.

Lemma all_calls_place h c' st :
  all_calls st → Inv c' → all_calls (place h c' st).
Proof.
  intros Hall Hc' w c0. unfold place. simpl.
  destruct (decide (h = w)) as [->|Hne].
  - intros Hl. apply list_lookup_insert_Some in Hl as [(_ & <- & _)|[? _]]; done.
  - rewrite list_lookup_insert_ne by done. apply Hall.
Qed.

Lemma all_calls_handler h msg st st1 :
  wf st → registered h st → all_calls st →
  final (handler h msg st) = Some st1 → all_calls st1.
Proof.
  intros Hwf Hr Hall. destruct (wf_registered _ Hwf _ Hr) as (c & Hc & Hp).
  rewrite (handler_shape _ _ _ _ Hwf Hc Hp).
  pose proof (all_calls_exec (condition c msg) st Hall) as Hall1.
  destruct (verdict (condition c msg)) as [b|e]; simpl; intros [= <-]; [|done].
  apply all_calls_place; [done|].
  apply Inv_receive; [by eapply Hall| |done]. by apply (wf_call _ Hwf _ _ Hc).
Qed.

Lemma all_calls_walks msg index st log r :
  walks msg index st log r → wf st → all_calls st →
  ∀ st', final r = Some st' → all_calls st'.
Proof.
  intros H. on_walk H; intros Hwf Hall st'; simpl; try done.
  - by intros [= <-].
  - by apply IH.
  - assert (registered h st) as Hr by (by eapply list_elem_of_lookup_2).
    apply IH.
    + eapply wf_handler; [done..|by rewrite Hh].
    + eapply all_calls_handler; [done..|by rewrite Hh].
  - intros [= <-].
    assert (registered h st) as Hr by (by eapply list_elem_of_lookup_2).
    eapply all_calls_handler; [done..|by rewrite Hh].
Qed.

Lemma all_calls_on_timeout id st :
  wf st → all_calls st → all_calls (on_timeout id st).
Proof.
  intros Hwf Hall. destruct (calls st !! id) as [c|] eqn:Hc.
  - rewrite (on_timeout_shape _ _ _ Hc). destruct (timer c) eqn:Ht; [|done|done].
    apply all_calls_place; [done|].
    apply Inv_expire; [by eapply Hall| |done]. by apply (wf_call _ Hwf _ _ Hc).
  - unfold on_timeout. by rewrite Hc.
Qed.

Lemma reachable_all_calls st : reachable st → all_calls st.
Proof.
  induction 1 as [|fuel ev st st' Hreach IH Hstep].
  - intros w c Hc. unfold new_client in Hc. simpl in Hc.
    by rewrite lookup_nil in Hc.
  - apply reachable_wf in Hreach as Hwf.
    destruct ev as [msg|id|cond n t|cond t]; simpl in Hstep.
    + unfold dispatch in Hstep.
      destruct (forEach fuel msg 0 st) as [log r] eqn:Hf.
      apply forEach_walks in Hf. by eapply all_calls_walks.
    + injection Hstep as <-. by apply all_calls_on_timeout.
    + injection Hstep as <-. by apply all_calls_register.
    + injection Hstep as <-. by apply all_calls_register.
Qed.

End CallInvariant.

Section Accumulation.
Context {Message : Type}.
Implicit Types (st : @Client Message) (c : @Call Message) (msg : Message).

(** X1. No cross-talk: in every reachable client, whatever else is
    registered, a call's [results] hold only frames on which its own
    predicate returned [true], a [waitForSilence] call holds none, and a
    [waitFor] promise that is fulfilled holds exactly [results], [count]
    frames long. *)
Theorem results_hold_only_accepted_frames st id c :
  reachable st → calls st !! id = Some c →
  Forall (λ msg, verdict (condition c msg) = Normal true) (results c) ∧
  (mode c = SILENCE → results c = []) ∧
  (∀ count v, mode c = COLLECT count → promise c = Fulfilled v →
     v = Messages (results c) ∧
     Integer (Z.of_nat (length (results c))) = count).
Proof.
  intros Hreach Hc. split; [|split].
  - revert st Hreach id c Hc.
    apply (reachable_all_calls
             (λ c, Forall (λ msg, verdict (condition c msg) = Normal true)
                          (results c))).
    + intros m cond t. constructor.
    + intros c msg Hinv _ _. unfold receive.
      destruct (verdict (condition c msg)) as [[|]|] eqn:Hv; [|done|done].
      destruct (mode c); [case_decide|]; simpl; try done;
        apply Forall_app; (split; [done|]); by repeat constructor.
    + intros c Hinv _ _. done.
  - revert st Hreach id c Hc.
    apply (reachable_all_calls (λ c, mode c = SILENCE → results c = [])).
    + done.
    + intros c msg Hinv _ _. unfold receive.
      destruct (verdict (condition c msg)) as [[|]|]; [|done|done].
      destruct (mode c) eqn:Hm; [case_decide|]; simpl; rewrite ?Hm; done.
    + intros c Hinv _ _. done.
  - intros count v Hm Hp.
    destruct (wf_call _ (reachable_wf _ Hreach) _ _ Hc) as [Hok _].
    unfold call_ok in Hok. rewrite Hp, Hm in Hok. tauto.
Qed.

(** X2. A [waitFor] with an integer [count] of at least 1 never holds more
    than [count] frames; it holds exactly [count] if and only if its promise
    is fulfilled; and when it is rejected the error is its timeout error,
    reporting fewer than [count] frames. *)
Theorem collected_never_exceeds_count st id c (N : Z) :
  reachable st → calls st !! id = Some c →
  mode c = COLLECT (Integer N) → (1 ≤ N)%Z →
  (Z.of_nat (length (results c)) ≤ N)%Z ∧
  (Z.of_nat (length (results c)) = N ↔ ∃ v, promise c = Fulfilled v) ∧
  (∀ e, promise c = Rejected e →
     e = timeout_error (length (results c)) (Integer N) ∧
     (Z.of_nat (length (results c)) < N)%Z).
Proof.
  intros Hreach Hc Hm HN.
  destruct (wf_call _ (reachable_wf _ Hreach) _ _ Hc) as [Hok _].
  assert ((Z.of_nat (length (results c)) ≤ N)%Z ∧
          (Z.of_nat (length (results c)) = N → ∃ v, promise c = Fulfilled v))
    as [Hle Hfull].
  { revert Hm HN. revert st Hreach id c Hc Hok.
    assert (∀ st, reachable st → ∀ id c, calls st !! id = Some c →
              mode c = COLLECT (Integer N) → (1 ≤ N)%Z →
              (Z.of_nat (length (results c)) ≤ N)%Z ∧
              (Z.of_nat (length (results c)) = N →
               ∃ v, promise c = Fulfilled v)) as Hinv; [|by eauto].
    apply (reachable_all_calls
             (λ c, mode c = COLLECT (Integer N) → (1 ≤ N)%Z →
                   (Z.of_nat (length (results c)) ≤ N)%Z ∧
                   (Z.of_nat (length (results c)) = N →
                    ∃ v, promise c = Fulfilled v))).
    - intros m cond t _ H1. simpl. split; [lia|]. intros H0. lia.
    - intros c msg Hinv _ Hp Hm H1.
      assert (mode c = COLLECT (Integer N)) as Hmc.
      { revert Hm. unfold receive.
        destruct (verdict (condition c msg)) as [[|]|]; [|done|done].
        destruct (mode c) eqn:Hm'; [case_decide|]; simpl; by rewrite ?Hm'. }
      destruct (Hinv Hmc H1) as [Hle Hfull].
      assert (Z.of_nat (length (results c)) < N)%Z as Hlt.
      { destruct (decide (Z.of_nat (length (results c)) = N)) as [Heq|]; [|lia].
        destruct (Hfull Heq) as [v Hv]. congruence. }
      unfold receive.
      destruct (verdict (condition c msg)) as [[|]|]; [|done|done].
      rewrite Hmc. case_decide as Hd; simpl; rewrite length_app; simpl.
      + rewrite Hp. simpl. split; [lia|]. eauto.
      + split; [lia|]. intros Heq. destruct Hd. rewrite length_app. simpl.
        f_equal. lia.
    - intros c Hinv Hokc Ht Hm H1. simpl in *.
      destruct (Hinv Hm H1) as [Hle Hfull]. split; [done|].
      intros Heq. destruct (Hfull Heq) as [v Hv].
      pose proof (call_ok_armed _ Hokc Ht). congruence. }
  split; [done|]. split; [split; [done|]|].
  - intros [v Hv]. unfold call_ok in Hok. rewrite Hv, Hm in Hok.
    destruct Hok as (_ & _ & [= H]). done.
  - intros e He. unfold call_ok in Hok. rewrite He, Hm in Hok.
    destruct Hok as [_ ->]. split; [done|].
    destruct (decide (Z.of_nat (length (results c)) = N)) as [Heq|]; [|lia].
    destruct (Hfull Heq) as [v Hv]. congruence.
Qed.

End Accumulation.

(** ** Handlers are served in the order the waits were issued *)
Section Order.
Context {Message : Type}.
Implicit Types (st : @Client Message) (c : @Call Message) (msg : Message).

Lemma snapshot_Set_delete h (s : list (option nat)) :
  omap id (Set_delete h s) = filter (λ x, x ≠ h) (omap id s).
Proof.
  induction s as [|[x|] s IH]; [done| |done].
  unfold Set_delete in *. csimpl. rewrite filter_cons.
  destruct (decide (x = h)) as [->|Hne].
  - rewrite decide_True by done. csimpl.
    rewrite decide_False by (intros H; by apply H). done.
  - rewrite decide_False by congruence. csimpl.
    rewrite decide_True by done. by rewrite IH.
Qed.

Lemma sorted_filter (P : nat → Prop) `{∀ x, Decision (P x)} (l : list nat) :
  StronglySorted lt l → StronglySorted lt (filter P l).
Proof.
  induction l as [|x l IH]; [done|].
  rewrite StronglySorted_cons, filter_cons. intros [Hx Hl].
  case_decide; [|by apply IH].
  apply StronglySorted_cons. split; [|by apply IH].
  apply Forall_forall. intros y [_ Hy]%list_elem_of_filter.
  by eapply Forall_forall in Hx.
Qed.

Lemma sorted_seq a n : StronglySorted lt (seq a n).
Proof.
  revert a. induction n as [|n IH]; intros a; simpl; [constructor|].
  apply StronglySorted_cons. split; [|apply IH].
  apply Forall_forall. intros y Hy%elem_of_seq. lia.
Qed.

Lemma snapshot_bound st x : wf st → x ∈ snapshot st → x < length (calls st).
Proof.
  intros Hwf (e & He & Hid)%list_elem_of_omap. simpl in Hid. subst e.
  by apply (wf_bound _ _ Hwf).
Qed.

Lemma snapshot_grown st st' :
  grown st st' → snapshot st' = snapshot st ++ news st st'.
Proof.
  intros Hg. unfold snapshot. rewrite (grown_news _ _ Hg), omap_app.
  by rewrite omap_id_Some.
Qed.

Lemma ordered_grown st st' :
  wf st → grown st st' → issue_ordered st → issue_ordered st'.
Proof.
  intros Hwf Hg Ho. unfold issue_ordered. rewrite (snapshot_grown _ _ Hg).
  apply StronglySorted_app_2; [|done|apply sorted_seq].
  intros x y Hx%(snapshot_bound _ _ Hwf) Hy%elem_of_seq. lia.
Qed.

Lemma ordered_place h c' st : issue_ordered st → issue_ordered (place h c' st).
Proof.
  unfold issue_ordered, snapshot, place. simpl.
  destruct (is_pending (promise c')); [done|].
  rewrite snapshot_Set_delete. apply sorted_filter.
Qed.

Lemma ordered_handler h msg st st1 :
  wf st → registered h st → issue_ordered st →
  final (handler h msg st) = Some st1 → issue_ordered st1.
Proof.
  intros Hwf Hr Ho. destruct (wf_registered _ Hwf _ Hr) as (c & Hc & Hp).
  rewrite (handler_shape _ _ _ _ Hwf Hc Hp).
  destruct (exec_grown (condition c msg) st Hwf) as [_ Hg].
  pose proof (ordered_grown _ _ Hwf Hg Ho) as Ho1.
  destruct (verdict (condition c msg)) as [b|e]; simpl; intros [= <-]; [|done].
  by apply ordered_place.
Qed.

Lemma ordered_walks msg index st log r :
  walks msg index st log r → wf st → issue_ordered st →
  ∀ st', final r = Some st' → issue_ordered st'.
Proof.
  intros H. on_walk H; intros Hwf Ho st'; simpl; try done.
  - by intros [= <-].
  - by apply IH.
  - assert (registered h st) as Hr by (by eapply list_elem_of_lookup_2).
    apply IH.
    + eapply wf_handler; [done..|by rewrite Hh].
    + eapply ordered_handler; [done..|by rewrite Hh].
  - intros [= <-].
    assert (registered h st) as Hr by (by eapply list_elem_of_lookup_2).
    eapply ordered_handler; [done..|by rewrite Hh].
Qed.

Lemma reachable_ordered st : reachable st → issue_ordered st.
Proof.
  induction 1 as [|fuel ev st st' Hreach IH Hstep]; [constructor|].
  apply reachable_wf in Hreach as Hwf.
  destruct ev as [msg|id|cond n t|cond t]; simpl in Hstep.
  - unfold dispatch in Hstep.
    destruct (forEach fuel msg 0 st) as [log r] eqn:Hf.
    apply forEach_walks in Hf. by eapply ordered_walks.
  - injection Hstep as <-. destruct (calls st !! id) as [c|] eqn:Hc.
    + rewrite (on_timeout_shape _ _ _ Hc). destruct (timer c); [|done|done].
      by apply ordered_place.
    + unfold on_timeout. by rewrite Hc.
  - injection Hstep as <-.
    eapply ordered_grown; [done|by apply register_grown|done].
  - injection Hstep as <-.
    eapply ordered_grown; [done|by apply register_grown|done].
Qed.

(** X3. A dispatch that returns calls the handlers in the order their
    waits were issued: the log of handlers called is strictly increasing in
    the call index, the handlers registered during the delivery coming
    last. *)
Theorem dispatch_serves_waits_in_issue_order st fuel msg log st' :
  reachable st → dispatch fuel msg st = (log, Ok st') →
  StronglySorted lt log ∧ issue_ordered st ∧ issue_ordered st'.
Proof.
  intros Hreach Hd. apply reachable_wf in Hreach as Hwf.
  pose proof (reachable_ordered _ Hreach) as Ho.
  assert (reachable st') as Hreach'.
  { eapply (reach_step fuel (Inbound msg)); [done|]. simpl. by rewrite Hd. }
  split; [|split; [done|by apply reachable_ordered]].
  unfold dispatch in Hd. apply forEach_walks in Hd.
  destruct (walks_log _ _ _ _ _ Hd Hwf st' eq_refl) as [Hlen ->].
  rewrite drop_0. apply StronglySorted_app_2; [|done|apply sorted_seq].
  intros x y Hx%(snapshot_bound _ _ Hwf) Hy%elem_of_seq. lia.
Qed.

End Order.

(** ** Frames nobody waits for, and timers of other waits *)
Section Registry.
Context {Message : Type}.
Implicit Types (st : @Client Message) (c : @Call Message) (msg : Message).

Lemma forEach_no_handler fuel msg index st :
  (∀ i h, messageHandlers st !! i ≠ Some (Some h)) →
  length (messageHandlers st) ≤ index + fuel →
  forEach fuel msg index st = ([], Ok st).
Proof.
  intros Hnone. revert index.
  induction fuel as [|fuel IH]; intros index Hlen; simpl.
  - by rewrite (proj2 (lookup_ge_None _ _)) by lia.
  - destruct (messageHandlers st !! index) as [[h|]|] eqn:Hi; [|apply IH; lia|done].
    by destruct (Hnone index h).
Qed.

Lemma filter_all (P : nat → Prop) `{∀ x, Decision (P x)} (l : list nat) :
  (∀ x, x ∈ l → P x) → filter P l = l.
Proof.
  induction l as [|x l IH]; [done|]. intros Hall.
  rewrite filter_cons_True by (apply Hall; by left).
  f_equal. apply IH. intros y Hy. apply Hall. by right.
Qed.

Lemma snapshot_on_timeout id st :
  wf st →
  snapshot (on_timeout id st) = filter (λ h, h ≠ id) (snapshot st).
Proof.
  intros Hwf.
  assert ((∀ c, calls st !! id = Some c → timer c ≠ Armed) →
          filter (λ h, h ≠ id) (snapshot st) = snapshot st) as Hsame.
  { intros Hidle. apply filter_all.
    intros x (e & He & Hid)%list_elem_of_omap ->. simpl in Hid. subst e.
    destruct (wf_registered _ Hwf _ He) as (c & Hc & Hp).
    apply (Hidle c Hc). destruct (wf_call _ Hwf _ _ Hc) as [Hok _].
    unfold call_ok in Hok. by rewrite Hp in Hok. }
  destruct (calls st !! id) as [c|] eqn:Hc.
  - rewrite (on_timeout_shape _ _ _ Hc). destruct (timer c) eqn:Ht.
    + unfold place, snapshot.
      assert (is_pending (promise (expire c)) = false) as ->.
      { unfold expire. simpl. by destruct (promise c), (mode c). }
      simpl. apply snapshot_Set_delete.
    + symmetry. apply Hsame. intros c' [= <-]. by rewrite Ht.
    + symmetry. apply Hsame. intros c' [= <-]. by rewrite Ht.
  - unfold on_timeout. rewrite Hc. symmetry. by apply Hsame.
Qed.

(** X4. Frames are not buffered: when no handler is live the dispatch
    calls nothing and leaves the client as it is, so a wait issued right
    after the frame is in the position of one issued without it. *)
Theorem frame_without_waiters_is_dropped st fuel msg :
  snapshot st = [] → length (messageHandlers st) ≤ fuel →
  dispatch fuel msg st = ([], Ok st) ∧
  ∀ cond count T,
    run fuel [Inbound msg; CallWaitFor cond count T] st
    = Ok (waitFor cond count T st).2.
Proof.
  intros Hempty Hlen.
  assert (dispatch fuel msg st = ([], Ok st)) as Hd.
  { apply forEach_no_handler; [|lia]. intros i h Hi.
    assert (h ∈ snapshot st) as Hin.
    { apply list_elem_of_omap. exists (Some h).
      split; [by eapply list_elem_of_lookup_2|done]. }
    rewrite Hempty in Hin. by apply elem_of_nil in Hin. }
  split; [done|]. intros cond count T. simpl. by rewrite Hd.
Qed.

(** X5. The timer of one wait touches no other wait: after it has come
    due every other call has the closures it had, and the live handlers are
    the former ones, in the same order, without that call's handler. *)
Theorem timeout_leaves_other_waits_alone st id :
  reachable st →
  snapshot (on_timeout id st) = filter (λ h, h ≠ id) (snapshot st) ∧
  ∀ w, w ≠ id → calls (on_timeout id st) !! w = calls st !! w.
Proof.
  intros Hwf%reachable_wf. split; [by apply snapshot_on_timeout|].
  intros w Hne. destruct (calls st !! id) as [c|] eqn:Hc.
  - rewrite (on_timeout_shape _ _ _ Hc). destruct (timer c); [|done|done].
    unfold place. simpl. by rewrite list_lookup_insert_ne.
  - unfold on_timeout. by rewrite Hc.
Qed.

(** X6. A wait that is issued and then times out leaves no handler
    behind: the live handlers are again exactly those from before the call,
    for [waitFor] and for [waitForSilence]. *)
Theorem timed_out_wait_leaves_no_handler st (cond : @Condition Message) count T :
  reachable st →
  snapshot (on_timeout (waitFor cond count T st).1 (waitFor cond count T st).2)
  = snapshot st ∧
  snapshot (on_timeout (waitForSilence cond T st).1 (waitForSilence cond T st).2)
  = snapshot st.
Proof.
  intros Hwf%reachable_wf.
  assert (∀ m, snapshot (on_timeout (register m cond T st).1 (register m cond T st).2)
               = snapshot st) as Hreg; [|by split; apply Hreg].
  intros m. rewrite snapshot_on_timeout by (by apply wf_register).
  rewrite (snapshot_grown st) by (by apply register_grown).
  rewrite filter_app. unfold news. rewrite register_shape by done. simpl.
  rewrite length_app. simpl.
  replace (length (calls st) + 1 - length (calls st)) with 1 by lia. simpl.
  rewrite filter_cons_False, filter_nil, app_nil_r by (intros H; by apply H).
  apply filter_all. intros x Hx%(snapshot_bound _ _ Hwf). lia.
Qed.

End Registry.

(** ** The listener of the older [waitFor] outlives its timeout *)
Section LegacyListener.
Context {Message : Type}.

Lemma legacy_no_listener (trace : list (@Tick Message)) :
  ∀ c, Legacy.listeners
         (Legacy.run (legacy_events 0 trace) (Legacy.mkClient [] [c])) = [].
Proof.
  induction trace as [|tk trace IH]; intros c; [done|].
  destruct tk as [msg|]; simpl.
  - apply IH.
  - unfold Legacy.on_timeout. simpl. destruct (Legacy.timer c); apply IH.
Qed.

Lemma legacy_listener_stays (P : Message → bool) (T : number)
    (trace : list (@Tick Message)) :
  ∀ t p,
    Legacy.listeners
      (Legacy.run (legacy_events 0 trace)
         (Legacy.mkClient [0] [Legacy.mkCall P T t p])) =
    if existsb (λ tk, match tk with Frame msg => P msg | Elapsed => false end)
         trace
    then [] else [0].
Proof.
  induction trace as [|tk trace IH]; intros t p; [done|].
  destruct tk as [msg|]; simpl.
  - unfold Legacy.emit, Legacy.listener. simpl. destruct (P msg); simpl.
    + unfold Legacy.resolve, Legacy.off, Legacy.clearTimeout, Legacy.update_call.
      simpl. apply legacy_no_listener.
    + apply IH.
  - unfold Legacy.on_timeout. simpl. destruct t; apply IH.
Qed.

Lemma first_settling_without_match (P : Message → bool)
    (trace : list (@Tick Message)) :
  existsb (λ tk, match tk with Frame msg => P msg | Elapsed => false end) trace
  = false →
  Elapsed ∈ trace → first_settling P trace = Some Elapsed.
Proof.
  induction trace as [|tk trace IH]; simpl.
  - by intros _ ?%elem_of_nil.
  - destruct tk as [msg|]; simpl; [|done].
    destruct (P msg); simpl; [done|].
    intros Hno [[=]|Hin]%elem_of_cons. by apply IH.
Qed.

(** X7. In the older client the timeout of a [waitFor] does not remove
    its ['message'] listener: on every sequence of frames and timeout, the
    listener is still installed at the end unless some frame satisfied the
    predicate.  In particular, after a timeout without any match the
    promise is rejected and the listener is still there. *)
Theorem legacy_timeout_keeps_listener
    (P : Message → bool) (T : number) (trace : list (@Tick Message)) :
  let st' := Legacy.run (legacy_events 0 trace)
               (Legacy.waitFor P T Legacy.new_client).2 in
  let matched :=
    existsb (λ tk, match tk with Frame msg => P msg | Elapsed => false end)
      trace in
  Legacy.listeners st' = (if matched then [] else [0]) ∧
  (matched = false → Elapsed ∈ trace →
   Legacy.promise_of 0 st' = Some (Legacy.Rejected (Legacy.timeout_error T)) ∧
   Legacy.listeners st' = [0]).
Proof.
  cbv zeta. split; [apply legacy_listener_stays|].
  intros Hno Hin. split.
  - rewrite legacy_single. by rewrite (first_settling_without_match P trace).
  - unfold Legacy.waitFor, Legacy.new_client. simpl.
    by rewrite legacy_listener_stays, Hno.
Qed.

End LegacyListener.

(** ** Opening the connection *)

Lemma connect_settled_stays (evs : list SocketEvent) :
  ∀ s, connect_promise s ≠ HPending →
    connect_promise (foldl (λ s ev, on_socket ev s) s evs) = connect_promise s.
Proof.
  induction evs as [|ev evs IH]; intros s Hp; [done|]. simpl.
  rewrite IH.
  - destruct ev; simpl; [| |destruct (connect_timer s); simpl];
      by destruct (connect_promise s).
  - destruct ev; simpl; [| |destruct (connect_timer s); simpl];
      by destruct (connect_promise s).
Qed.

Lemma connect_disarmed_stays (evs : list SocketEvent) :
  ∀ s, connect_timer s ≠ Armed →
    terminate_calls (foldl (λ s ev, on_socket ev s) s evs) = terminate_calls s.
Proof.
  induction evs as [|ev evs IH]; intros s Ht; [done|]. simpl.
  rewrite IH.
  - destruct ev; simpl; [done|done|]. by destruct (connect_timer s).
  - destruct ev; simpl; [|done|];
      destruct (connect_timer s) eqn:Hs; simpl; by rewrite ?Hs.
Qed.

Lemma connect_armed (evs : list SocketEvent) :
  ∀ s, connect_timer s = Armed →
    terminate_calls (foldl (λ s ev, on_socket ev s) s evs) =
    terminate_calls s + (if times_out evs then 1 else 0).
Proof.
  induction evs as [|ev evs IH]; intros s Ht; simpl; [lia|].
  destruct ev as [|err|]; simpl.
  - rewrite connect_disarmed_stays by (simpl; by rewrite Ht). simpl. lia.
  - by rewrite IH.
  - rewrite Ht. rewrite connect_disarmed_stays by done. simpl. lia.
Qed.

(** X8. [connect] of the newer client settles with the first event of the
    race and keeps that outcome: ['open'] resolves, ['error'] rejects with
    the error, the timer rejects with "Connection Timeout".  The socket is
    terminated, once, exactly when the timer comes due before any ['open']:
    an ['error'] does not clear the timer, so a connection that failed is
    still terminated when the timer comes due. *)
Theorem connect_settles_with_first_event (evs : list SocketEvent) :
  connect_promise (connecting evs) =
    match evs with
    | [] => HPending
    | SocketOpen :: _ => HResolved
    | SocketError err :: _ => HRejected err
    | ConnectTimerDue :: _ => HRejected connection_timeout
    end ∧
  terminate_calls (connecting evs) = (if times_out evs then 1 else 0) ∧
  ∀ err evs',
    connect_promise (connecting (SocketError err :: ConnectTimerDue :: evs'))
    = HRejected err ∧
    terminate_calls (connecting (SocketError err :: ConnectTimerDue :: evs')) = 1.
Proof.
  assert (terminate_calls (connecting evs) = (if times_out evs then 1 else 0))
    as Hterm by (unfold connecting; by rewrite connect_armed).
  split; [|split; [done|]].
  - unfold connecting. destruct evs as [|[|err|] evs]; simpl; [done|..];
      by rewrite connect_settled_stays.
  - intros err evs'. unfold connecting. simpl.
    rewrite connect_settled_stays by done.
    by rewrite connect_disarmed_stays by done.
Qed.

Lemma legacy_connect_follows (evs : list SocketEvent) :
  ∀ s s', connect_timer s = connect_timer s' →
    connect_promise s = connect_promise s' →
    let old := foldl (λ s ev, LegacyConnect.on_socket ev s) s evs in
    let new := foldl (λ s ev, on_socket ev s) s' evs in
    connect_promise old = connect_promise new ∧
    connect_timer old = connect_timer new ∧
    terminate_calls old = terminate_calls s.
Proof.
  induction evs as [|ev evs IH]; intros s s' Ht Hp; [done|]. simpl.
  destruct (IH (LegacyConnect.on_socket ev s) (on_socket ev s'))
    as (H1 & H2 & H3).
  - destruct ev; simpl; rewrite <- ?Ht; [done|done|].
    destruct (connect_timer s) eqn:Hs; simpl; congruence.
  - destruct ev; simpl; rewrite <- ?Ht, <- ?Hp; [done|done|].
    destruct (connect_timer s) eqn:Hs; simpl; congruence.
  - split; [done|]. split; [done|]. rewrite H3.
    destruct ev; simpl; [done|done|].
    destruct (connect_timer s) eqn:Hs; simpl; congruence.
Qed.

(** X9. On every sequence of socket events and timer the [connect] of the
    older client settles its promise as the newer one does, but it never
    terminates the socket: after a timeout the socket is left to itself. *)
Theorem legacy_connect_settles_alike (evs : list SocketEvent) :
  connect_promise (LegacyConnect.connecting evs)
  = connect_promise (connecting evs) ∧
  terminate_calls (LegacyConnect.connecting evs) = 0 ∧
  (times_out evs = true →
   terminate_calls (connecting evs) = 1 ∧
   connect_promise (LegacyConnect.connecting evs) ≠ HPending ∧
   connect_promise (LegacyConnect.connecting evs) ≠ HResolved).
Proof.
  destruct (legacy_connect_follows evs LegacyConnect.connect connect
              eq_refl eq_refl) as (Hp & _ & Hc).
  unfold LegacyConnect.connecting, connecting.
  split; [done|]. split; [done|]. intros Hout.
  split; [by rewrite connect_armed, Hout|].
  rewrite Hp.
  destruct evs as [|[|err|] evs]; simpl in *; try done;
    rewrite connect_settled_stays by done; simpl; split; done.
Qed.

(** ** The decimal count of the precision scenarios *)

Lemma split_point_whole (s : string) :
  includes_point s = false → split_point s = [s].
Proof.
  induction s as [|a s IH]; simpl; [done|].
  intros [Ha Hs]%orb_false_iff. rewrite Ha, (IH Hs). done.
Qed.

Lemma split_point_app (a s : string) :
  includes_point a = false →
  split_point (a +:+ "." +:+ s) = a :: split_point s.
Proof.
  induction a as [|x a IH]; simpl; [done|].
  intros [Hx Ha]%orb_false_iff. rewrite Hx. by rewrite (IH Ha).
Qed.

Lemma includes_point_app (a s : string) :
  includes_point (a +:+ "." +:+ s) = true.
Proof.
  induction a as [|x a IH]; simpl; [done|].
  rewrite IH. apply orb_true_r.
Qed.

(** X10. [decimals] counts the characters between the first and the
    second point: for a string without a point it is 0, for
    [whole.fraction] it is the length of [fraction], and whatever follows a
    second point is not counted. *)
Theorem decimals_counts_the_fraction (whole fraction rest : string) :
  includes_point whole = false → includes_point fraction = false →
  decimals whole = 0 ∧
  decimals (whole +:+ "." +:+ fraction) = String.length fraction ∧
  decimals (whole +:+ "." +:+ fraction +:+ "." +:+ rest) = String.length fraction.
Proof.
  intros Hw Hf. unfold decimals. split; [by rewrite Hw|].
  rewrite !includes_point_app, !split_point_app by done.
  rewrite split_point_whole by done. done.
Qed.

(** ** The accumulating predicate of the multi-market scenarios *)

Lemma saw_all_received (symbols : list string) (r : gset string) (m : Wire)
    (s : string) :
  s ∈ (saw_all symbols r m).1 ↔
  s ∈ r ∨ (s ∈ symbols ∧ is_ticker_update m = true ∧ first_symbol m = Some s).
Proof.
  unfold saw_all. simpl. destruct (first_symbol m) as [x|].
  - destruct (is_ticker_update m); simpl.
    + case_bool_decide as Hx.
      * rewrite elem_of_union, elem_of_singleton. split.
        -- intros [->|?]; [by right|by left].
        -- intros [?|(_ & _ & [= ->])]; [by right|by left].
      * split; [by left|]. intros [?|(? & _ & [= ->])]; done.
    + split; [by left|]. intros [?|(_ & ? & _)]; done.
  - split; [by left|]. intros [?|(_ & _ & ?)]; done.
Qed.

Lemma received_from (symbols : list string) (ms : list Wire) (s : string) :
  ∀ r : gset string,
    s ∈ foldl (λ r m, (saw_all symbols r m).1) r ms ↔
    s ∈ r ∨ (s ∈ symbols ∧
             ∃ m, m ∈ ms ∧ is_ticker_update m = true ∧ first_symbol m = Some s).
Proof.
  induction ms as [|m ms IH]; intros r; cbn [foldl].
  - split; [by left|]. intros [?|(_ & m & Hm%elem_of_nil & _)]; done.
  - rewrite IH, saw_all_received. split.
    + intros [[?|(? & ? & ?)]|(? & m' & ? & ?)]; [by left|right..].
      * split; [done|]. exists m. split; [by left|done].
      * split; [done|]. exists m'. split; [by right|done].
    + intros [?|(? & m' & [->|?]%elem_of_cons & ? & ?)].
      * by left; left.
      * left. right. done.
      * right. split; [done|]. by exists m'.
Qed.

Lemma size_list_to_set_le (l : list string) :
  size (list_to_set l : gset string) ≤ length l ∧
  (size (list_to_set l : gset string) = length l → NoDup l).
Proof.
  induction l as [|x l [IH1 IH2]].
  - split; [|constructor]. rewrite list_to_set_nil, size_empty. done.
  - rewrite list_to_set_cons. cbn [length]. destruct (decide (x ∈ l)) as [Hin|Hout].
    + assert ({[x]} ∪ list_to_set l = (list_to_set l : gset string)) as ->.
      { apply subseteq_union_1_L, singleton_subseteq_l.
        by apply elem_of_list_to_set. }
      split; lia.
    + rewrite size_union by set_solver. rewrite size_singleton.
      split; [lia|]. intros Heq. constructor; [done|]. apply IH2. lia.
Qed.

(** X11. The accumulating predicate answers [true] on a frame exactly
    when, counting that frame, every listed symbol has come in a ticker
    update and the list names no symbol twice; with a repeated symbol in the
    list it never answers [true], whatever arrives. *)
Theorem saw_all_answers (symbols : list string) (ms : list Wire) (m : Wire) :
  ((saw_all symbols (received_after symbols ms) m).2 = true ↔
   NoDup symbols ∧
   ∀ s, s ∈ symbols →
     ∃ m', m' ∈ ms ++ [m] ∧ is_ticker_update m' = true ∧
           first_symbol m' = Some s) ∧
  (∀ s, s ∈ (saw_all symbols (received_after symbols ms) m).1 ↔
     s ∈ symbols ∧
     ∃ m', m' ∈ ms ++ [m] ∧ is_ticker_update m' = true ∧
           first_symbol m' = Some s).
Proof.
  assert (∀ s, s ∈ (saw_all symbols (received_after symbols ms) m).1 ↔
            s ∈ symbols ∧
            ∃ m', m' ∈ ms ++ [m] ∧ is_ticker_update m' = true ∧
                  first_symbol m' = Some s) as Hrec.
  { intros s.
    assert ((saw_all symbols (received_after symbols ms) m).1
            = foldl (λ r m, (saw_all symbols r m).1) ∅ (ms ++ [m])) as ->
      by (by rewrite foldl_snoc).
    rewrite received_from. split; [|by right].
    intros [Hs%elem_of_empty|?]; done. }
  split; [|done].
  set (r := (saw_all symbols (received_after symbols ms) m).1) in *.
  assert ((saw_all symbols (received_after symbols ms) m).2
          = bool_decide (size r = length symbols)) as -> by done.
  rewrite bool_decide_eq_true.
  assert (r ⊆ list_to_set symbols) as Hsub.
  { intros s Hs. apply elem_of_list_to_set. by apply Hrec in Hs as [? _]. }
  destruct (size_list_to_set_le symbols) as [Hle Hnd].
  pose proof (subseteq_size _ _ Hsub) as Hsz.
  split.
  - intros Heq. split; [apply Hnd; lia|].
    intros s Hs. apply Hrec.
    rewrite (set_subseteq_size_eq r (list_to_set symbols)); [|done|lia].
    by apply elem_of_list_to_set.
  - intros [Hno Hall].
    assert (r = list_to_set symbols) as ->.
    { apply set_eq. intros s. rewrite elem_of_list_to_set, Hrec.
      split; [by intros [? _]|]. intros Hs. split; [done|by apply Hall]. }
    by apply size_list_to_set.
Qed.

(** ** The idle-connection scenario *)

Lemma filter_nil_existsb {A} (P : A → bool) (l : list A) :
  filter P l = [] ↔ existsb P l = false.
Proof.
  induction l as [|x l IH]; simpl; [done|].
  rewrite filter_cons. destruct (P x) eqn:HP; simpl; [|done].
  split; intros; done.
Qed.

Lemma unexpected_channels (m : Wire) :
  unexpected m = false ↔
  channel m = None ∨ channel m = Some ""%string ∨
  channel m = Some "heartbeat"%string ∨ channel m = Some "status"%string.
Proof.
  unfold unexpected. destruct (channel m) as [c|]; [|by split; [left|]].
  rewrite andb_false_iff, !negb_false_iff, String.eqb_eq, bool_decide_eq_true.
  rewrite !elem_of_cons, elem_of_nil. split.
  - intros [->|[->|[->|[]]]]; auto.
  - intros [?|[[= ->]|[[= ->]|[= ->]]]]; [done|auto..].
Qed.

(** X12. The idle-connection scenario passes exactly when every frame
    delivered before the timer of its [waitForSilence] fires has no channel,
    the empty channel, or one of the channels ["heartbeat"] and ["status"];
    on any other frame it throws an error whose message is
    "Unexpected subscription message received during idle timeout: Message
    received during silence window", which does not name the frame. *)
Theorem idle_scenario_outcome
    (st : @Client Wire) (T : number) (evs : list (@Event Wire)) fuel st' :
  reachable st →
  TimerDue (waitForSilence (pure unexpected) T st).1 ∉ evs →
  run fuel evs (waitForSilence (pure unexpected) T st).2 = Ok st' →
  let id := (waitForSilence (pure unexpected) T st).1 in
  promise_of id (on_timeout id st') ≫= idle_scenario =
    Some (if existsb unexpected (inbound evs)
          then Throws (mkError
                 ("Unexpected subscription message received during idle "
                  +:+ "timeout: Message received during silence window")%string)
          else Passes) ∧
  (existsb unexpected (inbound evs) = false ↔
   Forall (λ m, channel m = None ∨ channel m = Some ""%string ∨
                channel m = Some "heartbeat"%string ∨
                channel m = Some "status"%string) (inbound evs)).
Proof.
  intros Hreach Hno Hrun id. apply reachable_wf in Hreach as Hwf.
  subst id. unfold waitForSilence in *.
  pose proof (wf_register SILENCE (pure unexpected) T st Hwf) as Hwf0.
  pose proof (register_call SILENCE (pure unexpected) T st) as Hc0.
  set (id := (register SILENCE (pure unexpected) T st).1) in *.
  pose proof (run_call _ _ _ _ _ _ Hwf0 Hc0 Hrun) as Hc'.
  assert (decides (pure unexpected) unexpected) as Hd by done.
  destruct (silence_fold _ unexpected evs
              (mkCall SILENCE (pure unexpected) T [] Armed Pending)
              Hd eq_refl eq_refl eq_refl Hno) as [HA HB].
  simpl in HA, HB. split.
  - unfold promise_of. rewrite (on_timeout_self _ _ _ Hc'). simpl.
    destruct (existsb unexpected (inbound evs)) eqn:He.
    + destruct HB as [Hp Ht].
      { intros Hnil%filter_nil_existsb. congruence. }
      rewrite Ht, Hp. done.
    + apply filter_nil_existsb in He. rewrite (HA He). done.
  - rewrite Forall_forall. split.
    + intros He m Hm. apply unexpected_channels.
      destruct (unexpected m) eqn:Hu; [|done].
      assert (existsb unexpected (inbound evs) = true); [|congruence].
      apply existsb_exists. exists m. split; [by apply list_elem_of_In|done].
    + intros Hall. destruct (existsb unexpected (inbound evs)) eqn:He; [|done].
      apply existsb_exists in He as (m & Hm%list_elem_of_In & Hu).
      apply Hall, unexpected_channels in Hm. congruence.
Qed.

(** ** The further properties on the scenarios *)

Lemma resolved_client_reachable : reachable resolved_client.
Proof.
  apply (run_reachable 1 [Inbound "ticker"%string]
           (waitFor ticker (Integer 1) (Integer 8000) new_client).2);
    [apply register_reachable, reach_new|reflexivity].
Qed.

Lemma expired_client_reachable : reachable expired_client.
Proof.
  apply (run_reachable 1 [Inbound "ticker"%string; TimerDue 0]
           (waitFor ticker (Integer 2) (Integer 8000) new_client).2);
    [apply register_reachable, reach_new|reflexivity].
Qed.

(** X1 on the call resolved by a ticker update: what it holds is accepted
    by its predicate, and it is the value of its promise. *)
Lemma results_hold_only_accepted_frames_witness :
  (reachable resolved_client ∧ calls resolved_client !! 0 = Some resolved_call) ∧
  Forall (λ msg, verdict (ticker msg) = Normal true) ["ticker"%string] ∧
  Messages ["ticker"%string] = Messages (results resolved_call).
Proof.
  assert (reachable resolved_client) as Hreach by apply resolved_client_reachable.
  assert (calls resolved_client !! 0 = Some resolved_call) as Hc by reflexivity.
  split; [by split|].
  destruct (results_hold_only_accepted_frames resolved_client 0 resolved_call
              Hreach Hc) as (Hacc & _ & Hval).
  split; [exact Hacc|].
  destruct (Hval (Integer 1) (Messages ["ticker"%string]) eq_refl eq_refl)
    as [Hv _].
  exact Hv.
Defined.

(** X2 on the call that timed out with one match out of two: it holds fewer
    than two matches and its error counts one. *)
Lemma collected_never_exceeds_count_witness :
  (reachable expired_client ∧ calls expired_client !! 0 = Some expired_call ∧
   mode expired_call = COLLECT (Integer 2) ∧ (1 ≤ 2)%Z) ∧
  (Z.of_nat (length (results expired_call)) < 2)%Z ∧
  message (timeout_error 1 (Integer 2)) = "Timeout: Only received 1/2 messages"%string.
Proof.
  assert (reachable expired_client) as Hreach by apply expired_client_reachable.
  assert (calls expired_client !! 0 = Some expired_call) as Hc by reflexivity.
  assert (mode expired_call = COLLECT (Integer 2)) as Hm by reflexivity.
  assert (1 ≤ 2)%Z as HN by lia.
  split; [by repeat split|].
  destruct (collected_never_exceeds_count expired_client 0 expired_call 2
              Hreach Hc Hm HN) as (_ & _ & Herr).
  destruct (Herr (timeout_error 1 (Integer 2)) eq_refl) as [_ Hlt].
  split; [exact Hlt|reflexivity].
Defined.

(** X3 on the client whose predicate starts a second wait: the dispatch
    calls handler 0, then handler 1. *)
Lemma dispatch_serves_waits_in_issue_order_witness :
  (reachable reentrant_client ∧
   dispatch 2 "status"%string reentrant_client
   = ([0; 1], Ok (after 2 [Inbound "status"%string] reentrant_client))) ∧
  StronglySorted lt [0; 1] ∧ issue_ordered reentrant_client.
Proof.
  assert (reachable reentrant_client) as Hreach
    by apply register_reachable, reach_new.
  assert (dispatch 2 "status"%string reentrant_client
          = ([0; 1], Ok (after 2 [Inbound "status"%string] reentrant_client)))
    as Hd by reflexivity.
  split; [by split|].
  destruct (dispatch_serves_waits_in_issue_order reentrant_client 2
              "status"%string [0; 1] _ Hreach Hd) as (Hlog & Ho & _).
  split; [exact Hlog|exact Ho].
Defined.

(** X4 on the client whose only wait is resolved: a further ticker update
    is handed to nobody and a wait issued after it starts empty. *)
Lemma frame_without_waiters_is_dropped_witness :
  (snapshot resolved_client = [] ∧ length (messageHandlers resolved_client) ≤ 1) ∧
  dispatch 1 "ticker"%string resolved_client = ([], Ok resolved_client) ∧
  promise_of 1 (after 1 [Inbound "ticker"%string;
                         CallWaitFor ticker (Integer 1) (Integer 8000)]
                      resolved_client) = Some Pending.
Proof.
  assert (snapshot resolved_client = []) as H1 by reflexivity.
  assert (length (messageHandlers resolved_client) ≤ 1) as H2
    by (vm_compute; lia).
  split; [by split|].
  destruct (frame_without_waiters_is_dropped resolved_client 1 "ticker"%string
              H1 H2) as [Hd Hrun].
  split; [exact Hd|].
  unfold after. rewrite (Hrun ticker (Integer 1) (Integer 8000)). reflexivity.
Defined.

(** X5 on the client with two waiters: the timer of the first removes
    handler 0 and leaves the second wait as it was. *)
Lemma timeout_leaves_other_waits_alone_witness :
  reachable throwing_client ∧
  snapshot (on_timeout 0 throwing_client) = [1] ∧
  calls (on_timeout 0 throwing_client) !! 1 = calls throwing_client !! 1.
Proof.
  assert (reachable throwing_client) as Hreach
    by apply register_reachable, register_reachable, reach_new.
  split; [exact Hreach|].
  destruct (timeout_leaves_other_waits_alone throwing_client 0 Hreach)
    as [Hs Ho].
  split; [exact Hs|]. apply Ho. discriminate.
Defined.

(** X6 on the client with one silence wait: a [waitFor] issued and timed
    out leaves handler 0 alone in the set. *)
Lemma timed_out_wait_leaves_no_handler_witness :
  reachable silence_client ∧
  snapshot (on_timeout 1 (waitFor ticker (Integer 1) (Integer 8000) silence_client).2)
  = [0].
Proof.
  assert (reachable silence_client) as Hreach
    by apply register_reachable, reach_new.
  split; [exact Hreach|].
  destruct (timed_out_wait_leaves_no_handler silence_client ticker (Integer 1)
              (Integer 8000) Hreach) as [Hw _].
  exact Hw.
Defined.

(** X10 on a price with two decimals. *)
Lemma decimals_counts_the_fraction_witness :
  (includes_point "67432" = false ∧ includes_point "15" = false) ∧
  decimals "67432" = 0 ∧ decimals "67432.15" = 2.
Proof.
  assert (includes_point "67432" = false) as H1 by reflexivity.
  assert (includes_point "15" = false) as H2 by reflexivity.
  split; [by split|].
  destruct (decimals_counts_the_fraction "67432" "15" "" H1 H2) as (Hw & Hf & _).
  split; [exact Hw|exact Hf].
Defined.

(** X12 on a status frame, a heartbeat and a ticker update: the scenario
    throws. *)
Lemma idle_scenario_outcome_witness :
  (reachable (@new_client Wire) ∧
   (TimerDue (waitForSilence (pure unexpected) (Integer 10000) new_client).1
    ∉ noisy_feed) ∧
   run 1 noisy_feed (waitForSilence (pure unexpected) (Integer 10000) new_client).2
   = Ok noisy_client) ∧
  promise_of 0 (on_timeout 0 noisy_client) ≫= idle_scenario =
    Some (Throws (mkError
      ("Unexpected subscription message received during idle "
       +:+ "timeout: Message received during silence window")%string)).
Proof.
  assert (reachable (@new_client Wire)) as H1 by apply reach_new.
  assert (TimerDue (waitForSilence (pure unexpected) (Integer 10000) new_client).1
          ∉ noisy_feed) as H2.
  { intros H. repeat (apply elem_of_cons in H as [H|H]; [discriminate H|]).
    by apply elem_of_nil in H. }
  assert (run 1 noisy_feed
              (waitForSilence (pure unexpected) (Integer 10000) new_client).2
          = Ok noisy_client) as H3 by reflexivity.
  split; [by repeat split|].
  destruct (idle_scenario_outcome new_client (Integer 10000) noisy_feed 1
              noisy_client H1 H2 H3) as [Hout _].
  exact Hout.
Defined.
